(** * WiktionnaireParser: a shallow embedding of [parser.py] and [utils.py]

    The development follows the two source modules.  Python strings are
    sequences of Unicode code points, dictionaries are insertion-ordered
    association lists, the lxml tree is an inductive type with the [text] and
    [tail] fields of lxml, and exceptions are the error side of a result type.
    Stateful methods of [WiktionnaireParser] thread the object explicitly. *)

From Stdlib Require Import Ascii String List NArith Arith Bool Lia.
Import ListNotations.

Set Implicit Arguments.
Set Warnings "-register-all".

(** ** Python strings *)

Module Str.

(** A Python [str] is a sequence of code points. *)
Definition char := N.
Definition str := list char.

Definition char_eqb (a b : char) : bool := N.eqb a b.

Fixpoint str_eqb (s t : str) : bool :=
  match s, t with
  | [], [] => true
  | a :: s', b :: t' => char_eqb a b && str_eqb s' t'
  | _, _ => false
  end.

(** Literals are written as UTF-8 source text and decoded to code points. *)
Fixpoint bytes_of_string (s : string) : list N :=
  match s with
  | EmptyString => []
  | String a s' => N_of_ascii a :: bytes_of_string s'
  end.

Fixpoint utf8_decode (bs : list N) : str :=
  match bs with
  | [] => []
  | b0 :: r0 =>
    if (b0 <? 128)%N then b0 :: utf8_decode r0
    else match r0 with
    | [] => [b0]
    | b1 :: r1 =>
      if (b0 <? 224)%N
      then ((b0 - 192) * 64 + (b1 - 128))%N :: utf8_decode r1
      else match r1 with
      | [] => [b0; b1]
      | b2 :: r2 =>
        if (b0 <? 240)%N
        then ((b0 - 224) * 4096 + (b1 - 128) * 64 + (b2 - 128))%N
             :: utf8_decode r2
        else match r2 with
        | [] => [b0; b1; b2]
        | b3 :: r3 =>
          ((b0 - 240) * 262144 + (b1 - 128) * 4096
           + (b2 - 128) * 64 + (b3 - 128))%N :: utf8_decode r3
        end
      end
    end
  end.

Definition u (s : string) : str := utf8_decode (bytes_of_string s).

(** [s.startswith(p)] *)
Fixpoint startswith (p s : str) : bool :=
  match p, s with
  | [], _ => true
  | a :: p', b :: s' => char_eqb a b && startswith p' s'
  | _ :: _, [] => false
  end.

(** [p in s] *)
Fixpoint contains (p s : str) : bool :=
  startswith p s ||
  match s with
  | [] => false
  | _ :: s' => contains p s'
  end.

(** [s.endswith(p)] *)
Definition endswith (p s : str) : bool := startswith (rev p) (rev s).

(** [s.replace(a, b)] for a one-character [a]: every occurrence is rewritten. *)
Definition replace_char (a : char) (b : str) (s : str) : str :=
  flat_map (fun c => if char_eqb c a then b else [c]) s.

(** [s.split('\n')[0]]: the text before the first line feed. *)
Fixpoint first_line (s : str) : str :=
  match s with
  | [] => []
  | c :: s' => if char_eqb c 10%N then [] else c :: first_line s'
  end.

(** [sep.join(l)] *)
Fixpoint join (sep : str) (l : list str) : str :=
  match l with
  | [] => []
  | [x] => x
  | x :: r => x ++ sep ++ join sep r
  end.

(** The parts of the Unicode database that the program consults through
    [str.upper], the regex class [\d] and [str.strip].  They depend on the
    Unicode version of the interpreter and are an interface here. *)
Class Unicode := {
  upper : char -> str;
  isdecimal : char -> bool;
  isspace : char -> bool
}.

Section WithUnicode.
Context {U : Unicode}.

Fixpoint lstrip (s : str) : str :=
  match s with
  | [] => []
  | c :: s' => if isspace c then lstrip s' else s
  end.

(** [s.strip()] *)
Definition strip (s : str) : str := rev (lstrip (rev (lstrip s))).
End WithUnicode.

(** The ASCII fragment of the database, used to run the model on examples
    written in ASCII. *)
Definition ascii_upper (c : char) : str :=
  if ((97 <=? c) && (c <=? 122))%N then [(c - 32)%N] else [c].
Definition ascii_isdecimal (c : char) : bool := ((48 <=? c) && (c <=? 57))%N.
Definition ascii_isspace (c : char) : bool :=
  ((c =? 32) || ((9 <=? c) && (c <=? 13)) || ((28 <=? c) && (c <=? 31)))%N.

Definition ascii_unicode : Unicode :=
  {| upper := ascii_upper; isdecimal := ascii_isdecimal;
     isspace := ascii_isspace |}.

End Str.
Import Str.

(** ** Exceptions and results

    [Unsupported] stands for a selector or a regex outside the fragments
    embedded below, whatever the library does with it. *)

Inductive exn : Type :=
| IndexError
| KeyError (arg : str)
| AttributeError
| TypeError
| Unsupported.

Inductive result (A : Type) : Type :=
| Ok (a : A)
| Raise (e : exn).
Arguments Ok {A} a.
Arguments Raise {A} e.

Definition bind {A B} (r : result A) (k : A -> result B) : result B :=
  match r with
  | Ok a => k a
  | Raise e => Raise e
  end.

Declare Scope result_scope.
Delimit Scope result_scope with result.
Notation "x <- r ;; k" := (bind r (fun x => k))
  (at level 61, r at next level, right associativity) : result_scope.

(** ** Dictionaries *)

Module Dict.
Section Dict.
Variables (K V : Type) (eqb : K -> K -> bool).

Definition dict := list (K * V).

Fixpoint get (d : dict) (k : K) : option V :=
  match d with
  | [] => None
  | (k', v) :: d' => if eqb k' k then Some v else get d' k
  end.

(** [d[k] = v]: an existing key keeps its position, a new one is appended. *)
Fixpoint set (d : dict) (k : K) (v : V) : dict :=
  match d with
  | [] => [(k, v)]
  | (k', v') :: d' =>
    if eqb k' k then (k', v) :: d' else (k', v') :: set d' k v
  end.

Definition keys (d : dict) : list K := map fst d.
End Dict.
End Dict.

Definition sdict (V : Type) : Type := Dict.dict str V.
Definition sget {V} (d : sdict V) (k : str) : option V := Dict.get str_eqb d k.
Definition sset {V} (d : sdict V) (k : str) (v : V) : sdict V :=
  Dict.set str_eqb d k v.

(** ** The document tree (lxml.html)

    An element has a tag, attributes, the text before its first child, its
    children and the text after its closing tag; a comment has no tag name,
    no attributes and no children. *)

Module Dom.

Inductive node : Type :=
| Element (tag : str) (attrib : sdict str) (text : str)
          (children : list node) (tail : str)
| Comment (text : str) (tail : str).

(** [n.tag == t]; the tag of a comment is not a string. *)
Definition tag_is (t : str) (n : node) : bool :=
  match n with
  | Element t' _ _ _ _ => str_eqb t' t
  | Comment _ _ => false
  end.

Definition is_comment (n : node) : bool :=
  match n with
  | Element _ _ _ _ _ => false
  | Comment _ _ => true
  end.

Definition attrib (n : node) : sdict str :=
  match n with
  | Element _ a _ _ _ => a
  | Comment _ _ => []
  end.

(** [n.attrib.get(k)] *)
Definition attrib_get (n : node) (k : str) : option str := sget (attrib n) k.

(** [n.getchildren()], also the iteration over an element. *)
Definition getchildren (n : node) : list node :=
  match n with
  | Element _ _ _ cs _ => cs
  | Comment _ _ => []
  end.

Definition tail_of (n : node) : str :=
  match n with
  | Element _ _ _ _ tl => tl
  | Comment _ tl => tl
  end.

(** [n.text_content()]: the XPath string value.  Inside an element a comment
    contributes only the text that follows it. *)
Fixpoint text_content (n : node) : str :=
  match n with
  | Element _ _ t cs _ =>
    t ++ (fix inner (l : list node) : str :=
            match l with
            | [] => []
            | c :: r =>
              (match c with
               | Element _ _ _ _ tl => text_content c ++ tl
               | Comment _ tl => tl
               end) ++ inner r
            end) cs
  | Comment t _ => t
  end.

(** The sibling chain that starts at the first node of [l] with tag [t]:
    [n.find(t)] followed by repeated [getnext()].  The empty chain is [None]. *)
Fixpoint chain_at_tag (t : str) (l : list node) : list node :=
  match l with
  | [] => []
  | c :: r => if tag_is t c then l else chain_at_tag t r
  end.

(** [n.find(t)]: the first child with tag [t]. *)
Definition find (t : str) (n : node) : option node :=
  hd_error (chain_at_tag t (getchildren n)).

(** *** Positions *)

(** A position is the list of child indices from the root. *)
Definition path := list nat.

Fixpoint node_at (n : node) (p : path) : option node :=
  match p with
  | [] => Some n
  | i :: p' =>
    match nth_error (getchildren n) i with
    | Some c => node_at c p'
    | None => None
    end
  end.

(** [getparent()] *)
Definition getparent (p : path) : option path :=
  match p with
  | [] => None
  | _ :: _ => Some (removelast p)
  end.

(** The node at [p] followed by its next siblings: the values taken by
    [x = x.getnext()] until it is [None]. *)
Definition chain_from (root : node) (p : path) : list node :=
  match p with
  | [] => [root]
  | _ :: _ =>
    match node_at root (removelast p) with
    | Some parent => skipn (last p 0) (getchildren parent)
    | None => []
    end
  end.

(** *** Selectors

    The fragment of cssselect used by the program: id, class and type
    selectors joined by the descendant combinator. *)

Inductive simple : Type :=
| ById (i : str)
| ByClass (c : str)
| ByTag (t : str).

Definition selector := list simple.

(** Whitespace of CSS and of XPath [normalize-space]. *)
Definition css_space (c : char) : bool :=
  ((c =? 32) || (c =? 9) || (c =? 10) || (c =? 13) || (c =? 12))%N.
Definition xml_space (c : char) : bool :=
  ((c =? 32) || (c =? 9) || (c =? 10) || (c =? 13))%N.

(** The non-empty pieces of [s] between separators. *)
Fixpoint pieces (sep : char -> bool) (cur : str) (s : str) : list str :=
  match s with
  | [] => match cur with [] => [] | _ => [rev cur] end
  | c :: s' =>
    if sep c
    then match cur with
         | [] => pieces sep [] s'
         | _ => rev cur :: pieces sep [] s'
         end
    else pieces sep (c :: cur) s'
  end.

Definition is_lower_alnum (c : char) : bool :=
  (((97 <=? c) && (c <=? 122)) || ((48 <=? c) && (c <=? 57))
   || (c =? 95) || (c =? 45))%N.

Definition is_nmchar (c : char) : bool :=
  (is_lower_alnum c || ((65 <=? c) && (c <=? 90)) || (128 <=? c))%N.

Definition is_nmstart (c : char) : bool :=
  (((97 <=? c) && (c <=? 122)) || ((65 <=? c) && (c <=? 90))
   || (c =? 95) || (128 <=? c))%N.

Definition is_ident (s : str) : bool :=
  match s with
  | [] => false
  | c :: r =>
    (is_nmstart c
     || ((c =? 45)%N && match r with c' :: _ => is_nmstart c' | [] => false end))
    && forallb is_nmchar r
  end.

Definition parse_simple (s : str) : option simple :=
  match s with
  | 35%N :: i =>
    match i with
    | [] => None
    | _ :: _ => if forallb is_nmchar i then Some (ById i) else None
    end
  | 46%N :: c => if is_ident c then Some (ByClass c) else None
  | _ => if is_ident s && forallb is_lower_alnum s then Some (ByTag s) else None
  end.

Fixpoint parse_pieces (l : list str) : option selector :=
  match l with
  | [] => Some []
  | x :: r =>
    match parse_simple x, parse_pieces r with
    | Some c, Some sel => Some (c :: sel)
    | _, _ => None
    end
  end.

Definition parse_selector (s : str) : result selector :=
  match parse_pieces (pieces css_space [] s) with
  | Some (c :: sel) => Ok (c :: sel)
  | _ => Raise Unsupported
  end.

(** Class attributes are lists of names separated by XML whitespace. *)
Definition has_class (c : str) (n : node) : bool :=
  match attrib_get n (u "class") with
  | Some v =>
    existsb (str_eqb c) (pieces xml_space [] v)
  | None => false
  end.

Definition matches (c : simple) (n : node) : bool :=
  match n with
  | Comment _ _ => false
  | Element t _ _ _ _ =>
    match c with
    | ById i =>
      match attrib_get n (u "id") with
      | Some v => str_eqb v i
      | None => false
      end
    | ByClass k => has_class k n
    | ByTag t' => str_eqb t t'
    end
  end.

Definition hit (active : list selector) (n : node) : bool :=
  existsb (fun s => match s with [c] => matches c n | _ => false end) active.

Definition advance (active : list selector) (n : node) : list selector :=
  active ++
  flat_map (fun s => match s with
                     | c :: (_ :: _) as rest =>
                       if matches c n then [rest] else []
                     | _ => []
                     end) active.

(** The nodes of the subtree of [n] (itself included) selected by one of the
    [active] selectors, in document order, with their positions. *)
Fixpoint select_from (active : list selector) (p : path) (n : node)
  : list (path * node) :=
  (if hit active n then [(p, n)] else []) ++
  match n with
  | Element _ _ _ cs _ =>
    (fix inner (i : nat) (l : list node) : list (path * node) :=
       match l with
       | [] => []
       | c :: r => select_from (advance active n) (p ++ [i]) c ++ inner (S i) r
       end) 0 cs
  | Comment _ _ => []
  end.

(** [n.cssselect(s)] *)
Definition cssselect (s : str) (n : node) : result (list node) :=
  (sel <- parse_selector s ;;
   Ok (map snd (select_from [sel] [] n)))%result.

End Dom.
Import Dom.

(** ** Regular expressions (the fragment of [re] the program uses)

    Character classes, greedy repetition of a class, concatenation and a
    greedy optional group.  [rests r s] lists, in the order the backtracking
    matcher tries them, the suffixes of [s] left after a match of [r] at the
    start of [s]. *)

Module Re.
Section Re.
Context {U : Unicode}.

Inductive cls : Type :=
| CLit (c : char)      (* a literal character *)
| CAny                 (* [.]: any character but a line feed *)
| CDigit.              (* [\d] *)

Inductive re : Type :=
| Eps
| One (k : cls)
| Many (k : cls)       (* [k*] *)
| Cat (r1 r2 : re)
| Opt (r : re).        (* [(?:r)?] *)

Definition cls_ok (k : cls) (c : char) : bool :=
  match k with
  | CLit x => char_eqb x c
  | CAny => negb (char_eqb c 10%N)
  | CDigit => isdecimal c
  end.

Fixpoint many (k : cls) (s : str) : list str :=
  match s with
  | [] => [s]
  | c :: s' => if cls_ok k c then many k s' ++ [s] else [s]
  end.

Fixpoint rests (r : re) (s : str) : list str :=
  match r with
  | Eps => [s]
  | One k =>
    match s with
    | c :: s' => if cls_ok k c then [s'] else []
    | [] => []
    end
  | Many k => many k s
  | Cat r1 r2 => flat_map (rests r2) (rests r1 s)
  | Opt r' => rests r' s ++ [s]
  end.

(** A literal string as a regex. *)
Definition lit (s : str) : re :=
  fold_right (fun c r => Cat (One (CLit c)) r) Eps s.

(** A compiled pattern: [^] in front, a body, [$] behind. *)
Record pattern : Type := { bol : bool; body : re; eol : bool }.

(** [$] without [re.MULTILINE]: at the end, or before a final line feed. *)
Definition at_eol (s : str) : bool :=
  match s with
  | [] => true
  | [c] => char_eqb c 10%N
  | _ => false
  end.

(** The match the engine finds with [s] at the scanning position, given as
    what is left of [s] behind it. *)
Definition match_at (p : pattern) (at_start : bool) (s : str) : option str :=
  if bol p && negb at_start then None
  else List.find (fun rest => if eol p then at_eol rest else true)
                 (rests (body p) s).

(** [re.fullmatch(r, s)] *)
Definition fullmatch (r : re) (s : str) : bool :=
  existsb (fun rest => match rest with [] => true | _ => false end) (rests r s).

(** [re.match(p, s)] *)
Definition match_ (p : pattern) (s : str) : bool :=
  match match_at p true s with Some _ => true | None => false end.

Fixpoint search_from (p : pattern) (at_start : bool) (s : str) : bool :=
  match match_at p at_start s with
  | Some _ => true
  | None =>
    match s with
    | [] => false
    | _ :: s' => search_from p false s'
    end
  end.

(** [re.search(p, s)] *)
Definition search (p : pattern) (s : str) : bool := search_from p true s.

(** [re.sub(p, '', s)] for a pattern that matches no empty string: matches
    are found left to right and do not overlap; [skip] counts the characters
    of the current match still to be dropped. *)
Fixpoint sub_loop (p : pattern) (at_start : bool) (skip : nat) (s : str)
  : str :=
  match s with
  | [] => []
  | c :: s' =>
    match skip with
    | S k => sub_loop p false k s'
    | O =>
      match match_at p at_start s with
      | Some rest => sub_loop p false (length s' - length rest) s'
      | None => c :: sub_loop p false 0 s'
      end
    end
  end.

Definition sub (p : pattern) (s : str) : str := sub_loop p true 0 s.

End Re.
End Re.
Import Re.

(** ** Extracted data

    The nested dictionaries the program returns: keys are strings or the
    integer counters of [enumerate]; a value is a string, a list of strings,
    a dictionary or (in sub-definitions) an element carried as it is. *)

Inductive key : Type :=
| KStr (s : str)
| KInt (n : nat).

Definition key_eqb (a b : key) : bool :=
  match a, b with
  | KStr s, KStr t => str_eqb s t
  | KInt n, KInt m => Nat.eqb n m
  | _, _ => false
  end.

Inductive value : Type :=
| VStr (s : str)
| VList (l : list str)
| VDict (d : list (key * value))
| VNode (n : node).

Definition vdict : Type := Dict.dict key value.
Definition vget (d : vdict) (k : key) : option value := Dict.get key_eqb d k.
Definition vset (d : vdict) (k : key) (v : value) : vdict :=
  Dict.set key_eqb d k v.

(** ** utils.py *)

Module Utils.
Section Utils.
Context {U : Unicode}.

(** The two regexes of [ignore_etym].  The full stop after the first sentence
    is not escaped in the source and stands for any character. *)
Definition ignore_etym_1 : pattern :=
  {| bol := true;
     body := Cat (lit (u "Étymologie manquante ou incomplète"))
            (Cat (One CAny)
                 (lit (u " Si vous la connaissez, vous pouvez l’ajouter en cliquant ici.")));
     eol := true |}.

Definition ignore_etym_2 : pattern :=
  {| bol := false;
     body := lit (u "(Siècle à préciser)" ++ [160%N]);
     eol := false |}.

Definition ignore_etym : list pattern := [ignore_etym_1; ignore_etym_2].

Definition etymology_cleaner (etymology : str) : str :=
  fold_left (fun etymology ignore => sub ignore etymology)
            ignore_etym etymology.

Definition filter_sections_id (sections : list str)
           (useless_sections : list pattern) : list str :=
  filter (fun sections_ =>
            negb (existsb (fun x => search x sections_) useless_sections))
         sections.

(** The links of one node of a related-words section: a link to an appendix
    page is skipped; the membership test on a missing [href] is a
    [TypeError]. *)
Fixpoint link_words (links : list node) : result (list str) :=
  match links with
  | [] => Ok []
  | link :: r =>
    match attrib_get link (u "href") with
    | None => Raise TypeError
    | Some href =>
      (words <- link_words r ;;
       Ok (if contains (u "Annexe:") href then words
           else text_content link :: words))%result
    end
  end.

Definition related_entry (section : node) : result value :=
  (navcontent <- cssselect (u ".NavContent") section ;;
   match navcontent with
   | _ :: _ =>
     navhead <- cssselect (u ".NavHead") section ;;
     let description :=
       match navhead with
       | h :: _ => text_content h
       | [] => []
       end in
     links <- cssselect (u ".NavContent a") section ;;
     words <- link_words links ;;
     Ok (VDict [(KStr (u "description"), VStr description);
                (KStr (u "words"), VList words)])
   | [] =>
     links <- cssselect (u "a") section ;;
     words <- link_words links ;;
     Ok (VDict [(KStr (u "description"), VStr []);
                (KStr (u "words"), VList words)])
   end)%result.

Definition is_heading (n : node) : bool :=
  tag_is (u "h3") n || tag_is (u "h4") n.

(** The [while] loop over [section], [section.getnext()], ...; the empty
    chain is [section is None]. *)
Fixpoint extract_related_loop (chain : list node) (count : nat)
         (related : vdict) : result vdict :=
  match chain with
  | [] => Ok related
  | section :: next =>
    if is_heading section then Ok related
    else
      (related' <- (if is_comment section then Ok related
                    else entry <- related_entry section ;;
                         Ok (vset related (KInt count) entry)) ;;
       extract_related_loop next (S count) related')%result
  end.

Definition extract_related_words (section : list node) : result vdict :=
  extract_related_loop section 0 [].

(** [languages_json] is the content of [languages.json], which is read at
    every call. *)
Definition get_language_name (languages_json : sdict str) (lang_code : str)
  : result str :=
  match sget languages_json lang_code with
  | Some name => Ok name
  | None => Raise (KeyError (u "Language code unknown : " ++ lang_code))
  end.

End Utils.
End Utils.
Import Utils.

(** ** parser.py *)

(** [PyQuery.text()] on a selection; its whitespace rules belong to the
    library. *)
Class PyQuery := { pq_text : list node -> str }.

Module Parser.
Section Parser.
Context {U : Unicode} {Q : PyQuery}.

(** The content of [languages.json]. *)
Variable languages_json : sdict str.

(** The fields of a [WiktionnaireParser] object. *)
Record parser : Type := {
  _query : node;
  sections_id : sdict (list str);
  _language : str;
  pronunciation : list str;
  gender : str
}.

Definition with_sections_id (self : parser) (d : sdict (list str)) : parser :=
  {| _query := _query self; sections_id := d; _language := _language self;
     pronunciation := pronunciation self; gender := gender self |}.

Definition with_language (self : parser) (l : str) : parser :=
  {| _query := _query self; sections_id := sections_id self; _language := l;
     pronunciation := pronunciation self; gender := gender self |}.

Definition with_ligne (self : parser) (pg : list str * str) : parser :=
  {| _query := _query self; sections_id := sections_id self;
     _language := _language self;
     pronunciation := fst pg; gender := snd pg |}.

Fixpoint select_children (sel : selector) (i : nat) (l : list node)
  : list (path * node) :=
  match l with
  | [] => []
  | c :: r => select_from [sel] [i] c ++ select_children sel (S i) r
  end.

(** [self._query.find(s)]: the matches below the root, in document order. *)
Definition query_find (root : node) (s : str) : result (list (path * node)) :=
  (sel <- parse_selector s ;;
   Ok (select_children sel 0 (getchildren root)))%result.

(** [x[0]] *)
Definition first {A} (l : list A) : result A :=
  match l with
  | x :: _ => Ok x
  | [] => Raise IndexError
  end.

(** [n.attrib[k]] *)
Definition attrib_item (n : node) (k : str) : result str :=
  match attrib_get n k with
  | Some v => Ok v
  | None => Raise (KeyError k)
  end.

(** [n.find('a').attrib['href']] *)
Definition link_target (n : node) : result str :=
  match find (u "a") n with
  | Some a => attrib_item a (u "href")
  | None => Raise AttributeError
  end.

Fixpoint subsection_targets (l : list node) : result (list str) :=
  match l with
  | [] => Ok []
  | subsection :: r =>
    (h <- link_target subsection ;;
     hs <- subsection_targets r ;;
     Ok (h :: hs))%result
  end.

(** The loop over the items of the language's entry in the table of
    contents.  An exception leaves the index as built so far. *)
Fixpoint toc_loop (items : list node) (sid : sdict (list str))
  : result unit * sdict (list str) :=
  match items with
  | [] => (Ok tt, sid)
  | section :: r =>
    match link_target section with
    | Raise e => (Raise e, sid)
    | Ok section_id =>
      if contains (u "*") section_id then toc_loop r sid
      else
        match find (u "ul") section with
        | None => toc_loop r (sset sid section_id [])
        | Some ul =>
          match subsection_targets (getchildren ul) with
          | Raise e => (Raise e, sid)
          | Ok subsections => toc_loop r (sset sid section_id subsections)
          end
        end
    end
  end.

Definition _find_sections_id_without_summary (self : parser)
  : result (sdict (list str)) * parser :=
  match query_find (_query self) (u "#Étymologie") with
  | Raise e => (Raise e, self)
  | Ok etym =>
    let self1 :=
      match etym with
      | _ :: _ =>
        with_sections_id self (sset (sections_id self) (u "#Étymologie") [])
      | [] => self
      end in
    let section_id :=
      (titredef <- query_find (_query self) (u ".titredef") ;;
       t <- first titredef ;;
       match getparent (fst t) with
       | None => Raise AttributeError
       | Some pp =>
         match node_at (_query self) pp with
         | None => Raise AttributeError
         | Some parent => attrib_item parent (u "id")
         end
       end)%result in
    match section_id with
    | Raise e => (Raise e, self1)
    | Ok [] => (Ok (sections_id self1), self1)
    | Ok (c :: i) =>
      let self2 :=
        with_sections_id self1 (sset (sections_id self1) (u "#" ++ c :: i) [])
      in (Ok (sections_id self2), self2)
    end
  end.

Definition is_lang_link (target : str) (link : path * node) : bool :=
  match attrib_get (snd link) (u "href") with
  | Some h => str_eqb h target
  | None => false
  end.

(** The result is [None] when the language has no link in the page. *)
Definition _find_lang_sections_id (self : parser)
  : result (option (sdict (list str))) * parser :=
  match query_find (_query self) (u ".toc") with
  | Raise e => (Raise e, self)
  | Ok [] =>
    let (r, self') := _find_sections_id_without_summary self in
    (match r with Ok d => Ok (Some d) | Raise e => Raise e end, self')
  | Ok (_ :: _) =>
    match query_find (_query self) (u "a") with
    | Raise e => (Raise e, self)
    | Ok links =>
      let target := u "#" ++ replace_char 32%N (u "_") (_language self) in
      match List.find (is_lang_link target) links with
      | None => (Ok None, self)
      | Some lang =>
        let self1 := with_sections_id self [] in
        match chain_from (_query self) (fst lang) with
        | _ :: next :: _ =>
          let (r, sid) := toc_loop (getchildren next) [] in
          let self2 := with_sections_id self sid in
          (match r with Ok _ => Ok (Some sid) | Raise e => Raise e end, self2)
        | _ => (Raise AttributeError, self1)
        end
      end
    end
  end.

(** The [language] setter. *)
Definition set_language (self : parser) (language : str)
  : result unit * parser :=
  match language with
  | [] => (Raise IndexError, self)
  | c :: rest =>
    let language := upper c ++ rest in
    let self1 := with_language self language in
    let (r, self2) := _find_lang_sections_id self1 in
    (match r with Ok _ => Ok tt | Raise e => Raise e end, self2)
  end.

(** [WiktionnaireParser(html, lang_code, language)]; a falsy [lang_code] is
    [None] or the empty string. *)
Definition init (html : node) (lang_code : option str) (language : str)
  : result parser :=
  let self0 := {| _query := html; sections_id := []; _language := [];
                  pronunciation := []; gender := [] |} in
  (language' <- match lang_code with
                | Some (c :: code) => get_language_name languages_json (c :: code)
                | _ => Ok language
                end ;;
   match set_language self0 language' with
   | (Ok _, self1) => Ok (with_ligne self1 ([], []))
   | (Raise e, _) => Raise e
   end)%result.

(** [get_languages] *)
Definition get_languages (self : parser) : result (list str) :=
  (sections <- query_find (_query self) (u ".sectionlangue") ;;
   Ok (map (fun s => text_content (snd s)) sections))%result.

Definition get_title (self : parser) : result str :=
  (h1 <- query_find (_query self) (u "h1") ;;
   Ok (pq_text (map snd h1)))%result.

Definition _real_section_name (self : parser) (section_name : str)
  : result str :=
  (section <- query_find (_query self) section_name ;;
   Ok (pq_text (map snd section)))%result.

(** *** Definitions *)

(** [ligne_de_forme]: the new values of [pronunciation] and [gender]. *)
Definition has_api_span (line_ : node) : bool :=
  match find (u "span") line_ with
  | Some span =>
    match attrib_get span (u "class") with
    | Some c => str_eqb c (u "API")
    | None => false
    end
  | None => false
  end.

Fixpoint first_gender (chain : list node) : str :=
  match chain with
  | [] => []
  | line_ :: next =>
    match attrib_get line_ (u "class") with
    | Some c =>
      if str_eqb c (u "ligne-de-forme") then text_content line_
      else first_gender next
    | None => first_gender next
    end
  end.

Definition ligne_de_forme (line : node) : list str * str :=
  let pronunciation :=
    map text_content
        (filter has_api_span (chain_at_tag (u "a") (getchildren line))) in
  let gender := first_gender (chain_at_tag (u "span") (getchildren line)) in
  (map (replace_char 92%N []) pronunciation, gender).

(** [get_translation]: [None] when the [dl]/[dd] pair is missing. *)
Definition get_translation (example_line : node) : option str :=
  match find (u "dl") example_line with
  | Some dl =>
    match find (u "dd") dl with
    | Some translation => Some (strip (text_content translation))
    | None => None
    end
  | None => None
  end.

Definition truthy (o : option str) : option str :=
  match o with
  | Some (c :: s) => Some (c :: s)
  | _ => None
  end.

Fixpoint examples_loop (chain : list node) (count : nat) (examples : vdict)
  : vdict :=
  match chain with
  | [] => examples
  | example_line :: next =>
    let example := strip (first_line (text_content example_line)) in
    let translation := get_translation example_line in
    let examples' :=
      match example with
      | [] => examples
      | _ :: _ =>
        let ex := [(KStr (u "example"), VStr example)] in
        let ex' :=
          match truthy translation with
          | Some t => vset ex (KStr (u "translation")) (VStr t)
          | None => ex
          end in
        vset examples (KInt count) (VDict ex')
      end in
    examples_loop next (S count) examples'
  end.

Definition get_examples (definition_bloc : node) : vdict :=
  match find (u "ul") definition_bloc with
  | Some ul => examples_loop (chain_at_tag (u "li") (getchildren ul)) 0 []
  | None => []
  end.

(** The truth value of an element: it has a child. *)
Definition has_child (n : node) : bool :=
  match getchildren n with
  | [] => false
  | _ :: _ => true
  end.

Fixpoint subdefinitions_loop (i : nat) (blocs : list node)
         (subdefinitions : vdict) : vdict :=
  match blocs with
  | [] => subdefinitions
  | definition_bloc :: r =>
    let definition := first_line (text_content definition_bloc) in
    let entry := [(KStr (u "subdefinition"), VStr definition)] in
    let entry' :=
      if has_child definition_bloc
      then vset entry (KStr (u "examples")) (VNode definition_bloc)
      else entry in
    subdefinitions_loop (S i) r (vset subdefinitions (KInt i) (VDict entry'))
  end.

Definition get_subdefinitions (text : node) : vdict :=
  subdefinitions_loop 0 (getchildren text) [].

Definition definition_entry (definition_bloc : node) : value :=
  let definition := first_line (text_content definition_bloc) in
  let examples := get_examples definition_bloc in
  let entry := [(KStr (u "definition"), VStr definition)] in
  let entry1 :=
    match examples with
    | [] => entry
    | _ :: _ => vset entry (KStr (u "examples")) (VDict examples)
    end in
  let entry2 :=
    match find (u "ol") definition_bloc with
    | Some ol =>
      if has_child ol
      then vset entry1 (KStr (u "subdefinitions")) (VDict (get_subdefinitions ol))
      else entry1
    | None => entry1
    end in
  VDict entry2.

Fixpoint definitions_loop (i : nat) (blocs : list node) (definitions : vdict)
  : vdict :=
  match blocs with
  | [] => definitions
  | definition_bloc :: r =>
    definitions_loop (S i) r
      (vset definitions (KInt i) (definition_entry definition_bloc))
  end.

(** The [while] loop of [get_definitions]: it stops at the first [ol] or at
    the end of the chain, and reads each [p] or [span] on the way. *)
Fixpoint walk_to_ol (chain : list node) (pg : list str * str)
  : list node * (list str * str) :=
  match chain with
  | [] => ([], pg)
  | text :: next =>
    if tag_is (u "ol") text then (chain, pg)
    else walk_to_ol next
           (if tag_is (u "p") text || tag_is (u "span") text
            then ligne_de_forme text else pg)
  end.

Definition section_slug (part_of_speech : str) : str :=
  if startswith (u "#") part_of_speech then part_of_speech
  else u "#" ++ replace_char 32%N (u "_") part_of_speech.

Definition get_definitions (self : parser) (part_of_speech : str)
  : result vdict * parser :=
  match (found <- query_find (_query self) (section_slug part_of_speech) ;;
         first found)%result with
  | Raise e => (Raise e, self)
  | Ok text =>
    match getparent (fst text) with
    | None => (Ok [], self)
    | Some parent =>
      let (stop, pg) :=
        walk_to_ol (chain_from (_query self) parent)
                   (pronunciation self, gender self) in
      (Ok match stop with
          | ol :: _ => definitions_loop 0 (getchildren ol) []
          | [] => []
          end,
       with_ligne self pg)
    end
  end.

(** *** Etymology *)

Definition plain (s : str) : pattern :=
  {| bol := false; body := lit s; eol := false |}.

Definition get_etymology (self : parser) : result str :=
  match filter (search (plain (u "Étymologie")))
               (Dict.keys (sections_id self)) with
  | [] => Ok []
  | id_ :: _ =>
    (found <- query_find (_query self) id_ ;;
     anchor <- first found ;;
     match getparent (fst anchor) with
     | None => Raise AttributeError
     | Some parent =>
       match chain_from (_query self) parent with
       | _ :: next :: _ => Ok (etymology_cleaner (text_content next))
       | _ => Raise AttributeError
       end
     end)%result
  end.

(** *** Related words *)

(** [get_notes]: the loop reads [section.tag] without testing for [None]. *)
Fixpoint get_notes_loop (chain : list node) (text : list str) : result str :=
  match chain with
  | [] => Raise AttributeError
  | section :: next =>
    if is_heading section then Ok (join [10%N] text)
    else get_notes_loop next (text ++ [text_content section])
  end.

Definition get_notes (section : list node) : result str :=
  get_notes_loop section [].

Definition regex_special (c : char) : bool :=
  existsb (char_eqb c) (u ".^$*+?{}[]\|()").

(** The regex [#%s(?:_\d+)?] for a label without regex syntax of its own. *)
Definition related_regex (related_word : str) : result re :=
  if existsb regex_special related_word then Raise Unsupported
  else Ok (Cat (lit (u "#" ++ related_word))
               (Opt (Cat (One (CLit 95%N)) (Cat (One CDigit) (Many CDigit))))).

Definition ids_values (regex : re) (name : str) (values : list str)
           (ids : sdict str) : sdict str :=
  fold_left (fun ids value =>
               if fullmatch regex value then sset ids name value else ids)
            values ids.

Fixpoint ids_loop (regex : re) (root : node)
         (items : list (str * list str)) (ids : sdict str)
  : result (sdict str) :=
  match items with
  | [] => Ok ids
  | (key, values) :: r =>
    (found <- query_find root key ;;
     ids_loop regex root r (ids_values regex (pq_text (map snd found)) values ids))%result
  end.

Definition _related_words_ids (self : parser) (related_word : str)
  : result (sdict str) :=
  (regex <- related_regex (replace_char 32%N (u "_") related_word) ;;
   ids_loop regex (_query self) (sections_id self) [])%result.

Fixpoint related_loop (root : node) (ids : list (str * str))
         (related_words : vdict) : result vdict :=
  match ids with
  | [] => Ok related_words
  | (key, value) :: r =>
    (found <- query_find root value ;;
     anchor <- first found ;;
     section <- match getparent (fst anchor) with
                | None => Raise AttributeError
                | Some parent => Ok (tl (chain_from root parent))
                end ;;
     related <- (if contains (u "Notes") value
                 then notes <- get_notes section ;; Ok (VStr notes)
                 else words <- extract_related_words section ;;
                      Ok (VDict words)) ;;
     related_loop root r (vset related_words (KStr key) related))%result
  end.

Definition get_related_words (self : parser) (related_word : str)
  : result vdict :=
  (ids <- _related_words_ids self related_word ;;
   related_loop (_query self) ids [])%result.

(** *** Translations *)

(** The test on a node of the link chain of a list item. *)
Definition keep_link (links : node) : bool :=
  let class := attrib_get links (u "class") in
  if negb (match class with
           | Some c => str_eqb c (u "trad-exposant")
           | None => false
           end)
     && match attrib links with [] => false | _ :: _ => true end
  then match class with
       | None => true
       | Some c => negb (endswith (u "-Latn") c)
       end
  else false.

Definition line_translations (line : node) : list str :=
  map text_content (filter keep_link (chain_at_tag (u "a") (getchildren line))).

Fixpoint translations_loop (lines : list node) (result : sdict (list str))
  : sdict (list str) :=
  match lines with
  | [] => result
  | line :: r =>
    match find (u "span") line with
    | Some language =>
      translations_loop r
        (sset result (text_content language) (line_translations line))
    | None => translations_loop r result
    end
  end.

Definition get_translations (self : parser) (translation_id : str)
  : result (sdict (list str)) :=
  (found <- query_find (_query self) translation_id ;;
   anchor <- first found ;;
   match getparent (fst anchor) with
   | None => Raise AttributeError
   | Some section =>
     match chain_from (_query self) section with
     | _ :: next :: _ =>
       lines <- cssselect (u "li") next ;;
       Ok (translations_loop lines [])
     | _ => Raise AttributeError
     end
   end)%result.

(** *** Assembling the record *)

(** One turn of the loop of [insert_related_words].  Only a missing key is
    caught; an entry that is not a dictionary refuses the item assignment. *)
Definition insert_group (part : str) (parts_of_speech : vdict)
           (group : key * value) : result vdict :=
  match vget parts_of_speech (fst group) with
  | None => Ok (vset parts_of_speech (KStr part) (snd group))
  | Some (VDict d) =>
    Ok (vset parts_of_speech (fst group)
             (VDict (vset d (KStr part) (snd group))))
  | Some _ => Raise TypeError
  end.

Fixpoint insert_groups (part : str) (parts_of_speech : vdict)
         (related : list (key * value)) : result vdict :=
  match related with
  | [] => Ok parts_of_speech
  | group :: r =>
    (parts_of_speech' <- insert_group part parts_of_speech group ;;
     insert_groups part parts_of_speech' r)%result
  end.

Definition insert_related_words (parts_of_speech : vdict) (part : str)
           (related : vdict) : result vdict :=
  match related with
  | [] => Ok parts_of_speech
  | _ :: _ => insert_groups part parts_of_speech related
  end.

Definition useless_sections : list pattern :=
  [plain (u "Étymologie"); plain (u "Prononciation"); plain (u "Références");
   plain (u "Voir_aussi"); plain (u "Anagrammes"); plain (u "Liens_externes");
   {| bol := false; body := Cat (lit (u "Erreur")) (Many (CLit 115%N));
      eol := false |}].

Definition parts : list str :=
  map u
    ["Variantes orthographiques"; "Variantes"; "Abréviations";
     "Transcriptions dans diverses écritures"; "Augmentatifs";
     "Diminutifs"; "Synonymes"; "Quasi-synonymes"; "Antonymes";
     "Gentilés"; "Composés"; "Dérivés"; "Apparentés étymologiques";
     "Vocabulaire"; "Phrases"; "Variantes dialectales"; "Hyperonymes";
     "Hyponymes"; "Holonymes"; "Méronymes"; "Troponymes";
     "Dérivés dans d’autres langues"; "Faux-amis"; "Notes"; "Paronymes";
     "Anagrammes"; "Voir aussi"]%string.

Definition translations_value (t : sdict (list str)) : value :=
  VDict (map (fun lt => (KStr (fst lt), VList (snd lt))) t).

Fixpoint section_translations (self : parser) (values : list str)
         (entry : vdict) : result vdict :=
  match values with
  | [] => Ok entry
  | value :: r =>
    if match_ (plain (u "#Traductions")) value
    then (translation <- get_translations self value ;;
          section_translations self r
            (vset entry (KStr (u "translations"))
                  (translations_value translation)))%result
    else section_translations self r entry
  end.

Fixpoint sections_loop (self : parser) (sections : list str)
         (parts_of_speech : vdict) : result vdict * parser :=
  match sections with
  | [] => (Ok parts_of_speech, self)
  | section_name :: r =>
    match _real_section_name self section_name with
    | Raise e => (Raise e, self)
    | Ok nice_section_name =>
      match get_definitions self section_name with
      | (Raise e, self') => (Raise e, self')
      | (Ok definitions, self') =>
        let entry1 :=
          match pronunciation self' with
          | [] => definitions
          | _ :: _ => vset definitions (KStr (u "pronunciation"))
                           (VList (pronunciation self'))
          end in
        let entry2 :=
          match gender self' with
          | [] => entry1
          | _ :: _ => vset entry1 (KStr (u "gender")) (VStr (gender self'))
          end in
        if negb (str_eqb (_language self') (u "Français"))
        then sections_loop self' r
               (vset parts_of_speech (KStr nice_section_name) (VDict entry2))
        else
          match section_translations self'
                  (match sget (sections_id self') section_name with
                   | Some values => values
                   | None => []
                   end) entry2 with
          | Raise e => (Raise e, self')
          | Ok entry3 =>
            sections_loop self' r
              (vset parts_of_speech (KStr nice_section_name) (VDict entry3))
          end
      end
    end
  end.

Fixpoint parts_loop (self : parser) (l : list str) (parts_of_speech : vdict)
  : result vdict :=
  match l with
  | [] => Ok parts_of_speech
  | part :: r =>
    (related <- get_related_words self part ;;
     parts_of_speech' <- insert_related_words parts_of_speech part related ;;
     parts_loop self r parts_of_speech')%result
  end.

Definition get_parts_of_speech (self : parser) : result vdict * parser :=
  let sections :=
    filter_sections_id (Dict.keys (sections_id self)) useless_sections in
  match sections_loop self sections [] with
  | (Raise e, self') => (Raise e, self')
  | (Ok parts_of_speech, self') => (parts_loop self' parts parts_of_speech, self')
  end.

(** [get_word_data] *)
Definition get_word_data (self : parser) : result vdict * parser :=
  match get_title self with
  | Raise e => (Raise e, self)
  | Ok title =>
    match get_etymology self with
    | Raise e => (Raise e, self)
    | Ok etymologies =>
      match get_parts_of_speech self with
      | (Raise e, self') => (Raise e, self')
      | (Ok parts_of_speech, self') =>
        (Ok [(KStr (u "title"), VStr title);
             (KStr (u "etymologies"), VStr etymologies);
             (KStr (u "partOfSpeech"), VDict parts_of_speech)], self')
      end
    end
  end.

End Parser.
End Parser.
Import Parser.

(** ** A concrete interpreter for running the model

    [PyQuery.text()] is taken to join the text contents with a space. *)
Definition plain_text : PyQuery :=
  {| pq_text := fun l => join (u " ") (map text_content l) |}.

Definition elt (tag : string) (attrs : list (string * string)) (text : string)
           (children : list node) : node :=
  Element (u tag) (map (fun kv => (u (fst kv), u (snd kv))) attrs) (u text)
          children [].

(** A page in the shape of a French Wiktionary entry: a table of contents
    for one language, an etymology, one part of speech with its synonyms and
    translations. *)
Open Scope string_scope.

Definition anchor (tag id class text : string) : node :=
  elt tag [] "" [elt "span" [("class", class); ("id", id)] text []].

Definition toc_item (href : string) (sub : list node) : node :=
  elt "li" [] "" (elt "a" [("href", href)] "" [] :: sub).

Definition sample_toc : node :=
  elt "div" [("class", "toc")] ""
    [elt "ul" [] ""
       [elt "li" [] ""
          [elt "a" [("href", "#Français")] "Français" [];
           elt "ul" [] ""
             [toc_item "#Étymologie" [];
              toc_item "#Nom_commun"
                [elt "ul" [] ""
                   [toc_item "#Synonymes" []; toc_item "#Traductions" []]];
              toc_item "#Références" []]];
        elt "li" [] ""
          [elt "a" [("href", "#Anglais")] "Anglais" [];
           elt "ul" [] "" [toc_item "#Nom_commun_2" []]]]].

Definition sample_ligne : node :=
  elt "p" [] ""
    [elt "b" [] "chat" [];
     elt "a" [("href", "/wiki/Annexe:Prononciation")] ""
       [elt "span" [("class", "API")] "\ʃa\" []];
     elt "span" [("class", "ligne-de-forme")] "masculin" []].

Definition sample_ol : node :=
  elt "ol" [] ""
    [elt "li" [] "Mammifère carnivore."
       [elt "ul" [] "" [elt "li" [] "Le chat dort." []]];
     elt "li" [] "Individu mâle." []].

Definition sample_anglais : node :=
  elt "li" [] ""
    [elt "span" [("class", "trad-en")] "Anglais" [];
     elt "a" [("href", "/wiki/cat")] "cat" [];
     elt "a" [("href", "/wiki/cat#en"); ("class", "trad-exposant")] "(en)" []].

Definition sample_russe_span : node :=
  elt "span" [("class", "trad-ru")] "Russe" [].

Definition sample_russe : node :=
  elt "li" [] ""
    [sample_russe_span;
     elt "a" [("href", "/wiki/кот")] "кот" [];
     elt "a" [("href", "/wiki/kot"); ("class", "lang-ru-Latn")] "kot" []].

Definition sample_translations : node :=
  elt "div" [] "" [elt "ul" [] "" [sample_anglais; sample_russe]].

Definition sample_body : list node :=
  [anchor "h2" "Français" "sectionlangue" "Français";
   anchor "h3" "Étymologie" "titreetym" "Étymologie";
   elt "dl" [] "" [elt "dd" [] "Du latin cattus." []];
   anchor "h3" "Nom_commun" "titredef" "Nom commun";
   sample_ligne;
   sample_ol;
   anchor "h4" "Synonymes" "" "Synonymes";
   elt "ul" [] ""
     [elt "li" [] "" [elt "a" [("href", "/wiki/matou")] "matou" []];
      elt "li" [] "" [elt "a" [("href", "/wiki/minet")] "minet" []]];
   anchor "h4" "Traductions" "" "Traductions";
   sample_translations;
   anchor "h3" "Références" "" "Références";
   anchor "h2" "Anglais" "sectionlangue" "Anglais";
   anchor "h3" "Nom_commun_2" "titredef" "Nom commun";
   elt "ol" [] "" [elt "li" [] "Discussion informelle." []]].

Definition sample_page : node :=
  elt "html" [] ""
    [elt "body" [] "" (sample_toc :: elt "h1" [] "chat" [] :: sample_body)].

(** A page whose last section is a [Notes] subsection: no heading follows
    its paragraph. *)
Definition notes_page : node :=
  elt "html" [] ""
    [elt "body" [] ""
       [elt "div" [("class", "toc")] ""
          [elt "ul" [] ""
             [elt "li" [] ""
                [elt "a" [("href", "#Français")] "Français" [];
                 elt "ul" [] ""
                   [toc_item "#Nom_commun"
                      [elt "ul" [] "" [toc_item "#Notes" []]]]]]];
        elt "h1" [] "miaou" [];
        anchor "h3" "Nom_commun" "titredef" "Nom commun";
        elt "ol" [] "" [elt "li" [] "Cri du chat." []];
        anchor "h4" "Notes" "" "Notes";
        elt "p" [] "Ce mot est familier." []]].

(** A node of a related-words section whose link has no [href]. *)
Definition bare_link_list : node :=
  elt "ul" [] "" [elt "li" [] "" [elt "a" [("name", "mot")] "mot" []]].

(** A page with neither a table of contents nor a word title. *)
Definition bare_page : node :=
  elt "html" [] ""
    [elt "body" [] "" [elt "h1" [] "chat" []; elt "p" [] "Rien ici." []]].

Definition sample_languages : sdict str :=
  [(u "fr", u "Français"); (u "en", u "Anglais"); (u "de", u "Allemand")].

(** A section without definitions followed by a section with some. *)
Definition two_sections_page : node :=
  elt "html" [] ""
    [elt "body" [] ""
       [anchor "h3" "Adverbe" "titredef" "Adverbe";
        elt "p" [] "" [elt "b" [] "chat" []];
        anchor "h3" "Nom_commun" "titredef" "Nom commun";
        elt "ol" [] "" [elt "li" [] "Animal." []]]].

(** A translation item whose first link has no attribute at all, and a
    second item for the same language. *)
Definition bare_link : node := elt "a" [] "cat" [].

Definition bare_item : node :=
  elt "li" [] ""
    [elt "span" [("class", "trad-en")] "Anglais" [];
     bare_link;
     elt "a" [("href", "/wiki/feline")] "feline" []].

Definition second_item : node :=
  elt "li" [] ""
    [elt "span" [("class", "trad-en")] "Anglais" [];
     elt "a" [("href", "/wiki/tomcat")] "tomcat" []].

Definition translations_block : node :=
  elt "div" [] "" [elt "ul" [] "" [bare_item; second_item]].

Definition translations_page : node :=
  elt "html" [] ""
    [elt "body" [] ""
       [anchor "h4" "Traductions" "" "Traductions"; translations_block]].

(** One part of speech with two synonym subsections. *)
Definition synonyms_page : node :=
  elt "html" [] ""
    [elt "body" [] ""
       [elt "div" [("class", "toc")] ""
          [elt "ul" [] ""
             [elt "li" [] ""
                [elt "a" [("href", "#Français")] "Français" [];
                 elt "ul" [] ""
                   [toc_item "#Nom_commun"
                      [elt "ul" [] ""
                         [toc_item "#Synonymes" [];
                          toc_item "#Synonymes_2" []]]]]]];
        elt "h1" [] "chat" [];
        anchor "h3" "Nom_commun" "titredef" "Nom commun";
        elt "ol" [] "" [elt "li" [] "Animal." []; elt "li" [] "Mâle." []];
        anchor "h4" "Synonymes" "" "Synonymes";
        elt "ul" [] ""
          [elt "li" [] "" [elt "a" [("href", "/wiki/minet")] "minet" []]];
        anchor "h4" "Synonymes_2" "" "Synonymes";
        elt "ul" [] ""
          [elt "li" [] "" [elt "a" [("href", "/wiki/matou")] "matou" []]];
        anchor "h3" "Références" "" "Références"]].

(** A page without table of contents, in the shape the fallback scan
    expects: the word title sits inside the headline that carries the
    identifier. *)
Definition fallback_page : node :=
  elt "html" [] ""
    [elt "body" [] ""
       [elt "h1" [] "chat" [];
        elt "h3" [] ""
          [elt "span" [("class", "mw-headline"); ("id", "Étymologie")]
             "Étymologie" []];
        elt "dl" [] "" [elt "dd" [] "Du latin cattus." []];
        elt "h3" [] ""
          [elt "span" [("class", "mw-headline"); ("id", "Nom_commun")] ""
             [elt "span" [("class", "titredef")] "Nom commun" []]];
        elt "ol" [] "" [elt "li" [] "Animal." []]]].

Definition new_parser (html : node) : parser :=
  {| _query := html; sections_id := []; _language := [];
     pronunciation := []; gender := [] |}.

(** Links of a related-words node, one of them to an appendix page. *)
Definition sample_links : list node :=
  [elt "a" [("href", "/wiki/matou")] "matou" [];
   elt "a" [("href", "/wiki/Annexe:Chats")] "annexe" [];
   elt "a" [("href", "/wiki/minet")] "minet" []].

(** The content of a related-words subsection with a comment in it. *)
Definition sample_related_chain : list node :=
  [elt "ul" [] ""
     [elt "li" [] "" [elt "a" [("href", "/wiki/matou")] "matou" []]];
   Comment (u " liste ") [];
   elt "p" [] "" [elt "a" [("href", "/wiki/minet")] "minet" []]].

(** The object built from [sample_page] for ['Français']. *)
Definition sample_parser : parser :=
  {| _query := sample_page;
     sections_id :=
       [(u "#Étymologie", []);
        (u "#Nom_commun", [u "#Synonymes"; u "#Traductions"]);
        (u "#Références", [])];
     _language := u "Français";
     pronunciation := [];
     gender := [] |}.

Close Scope string_scope.

(** ** Vocabulary of the statements *)

Section Vocabulary.
Context {U : Unicode} {Q : PyQuery}.

(** No node of the chain is a heading of level 3 or 4. *)
Definition no_heading (chain : list node) : bool :=
  forallb (fun n => negb (is_heading n)) chain.

(** No group of [related] is named after a key of the mapping or after the
    category. *)
Definition fresh_groups (parts_of_speech : vdict) (part : str)
           (related : vdict) : Prop :=
  forall group, In group related ->
    vget parts_of_speech (fst group) = None /\ fst group <> KStr part.

(** A regex that starts with a character class consumes a character. *)
Definition consuming (r : re) : Prop :=
  forall s rest, In rest (rests r s) -> length rest < length s.

(** A regex whose leftmost factor is a character class. *)
Fixpoint head_one (r : re) : bool :=
  match r with
  | One _ => true
  | Cat r1 _ => head_one r1
  | _ => false
  end.

(** No later item writes to the entry of [name]. *)
Definition last_for (name : str) (post : list node) : Prop :=
  forall l sp, In l post -> find (u "span") l = Some sp ->
               text_content sp <> name.

(** The human-readable name of a section: the text of its anchor. *)
Definition section_name (root : node) (key : str) : str :=
  match query_find root key with
  | Ok found => pq_text (map snd found)
  | Raise _ => []
  end.

(** The matched subsections, each with the name of its parent section, in
    the order of the index. *)
Definition matched (regex : re) (root : node)
           (items : list (str * list str)) : list (str * str) :=
  flat_map (fun kv =>
              map (pair (section_name root (fst kv)))
                  (filter (fullmatch regex) (snd kv)))
           items.

(** The last subsection matched under a section called [name]. *)
Definition last_match (name : str) (pairs : list (str * str)) : option str :=
  fold_left (fun acc nv => if str_eqb (fst nv) name then Some (snd nv) else acc)
            pairs None.

Definition set_pair (ids : sdict str) (nv : str * str) : sdict str :=
  sset ids (fst nv) (snd nv).

(** [enumerate(l, k)] *)
Fixpoint enumerate_from (A : Type) (k : nat) (l : list A) : list (nat * A) :=
  match l with
  | [] => []
  | x :: r => (k, x) :: enumerate_from (S k) r
  end.

(** A link to an appendix page. *)
Definition is_appendix (link : node) : bool :=
  match attrib_get link (u "href") with
  | Some href => contains (u "Annexe:") href
  | None => false
  end.

(** The entry of a node of a related-words section at position [i]; a
    comment has none. *)
Definition related_at (ib : nat * node) : vdict :=
  if is_comment (snd ib) then []
  else match related_entry (snd ib) with
       | Ok entry => [(KInt (fst ib), entry)]
       | Raise _ => []
       end.

(** The entry of an example line at position [i]; a line whose first line
    of text is blank has none. *)
Definition example_at (ib : nat * node) : vdict :=
  match strip (first_line (text_content (snd ib))) with
  | [] => []
  | c :: s =>
    [(KInt (fst ib),
      VDict match truthy (get_translation (snd ib)) with
            | Some t => [(KStr (u "example"), VStr (c :: s));
                         (KStr (u "translation"), VStr t)]
            | None => [(KStr (u "example"), VStr (c :: s))]
            end)]
  end.

(** All keys are counters. *)
Definition int_keys (d : vdict) : Prop :=
  forall k, In k (Dict.keys d) -> exists i, k = KInt i.

(** A value that is not a dictionary with a ['translations'] entry. *)
Definition no_translations_in (v : value) : Prop :=
  forall d, v = VDict d -> vget d (KStr (u "translations")) = None.

(** No entry of the record has a ['translations'] entry. *)
Definition no_translations (parts_of_speech : vdict) : Prop :=
  forall k v, In (k, v) parts_of_speech -> no_translations_in v.

(** The nodes in front of the first [ol] of a chain. *)
Fixpoint before_ol (chain : list node) : list node :=
  match chain with
  | [] => []
  | n :: next => if tag_is (u "ol") n then [] else n :: before_ol next
  end.

(** A node that [get_definitions] hands to [ligne_de_forme]. *)
Definition is_ligne (n : node) : bool :=
  tag_is (u "p") n || tag_is (u "span") n.

(** The index that the scan of a page without table of contents leaves,
    given the index [d] it finds. *)
Definition fallback_index (root : node) (d : sdict (list str))
  : sdict (list str) :=
  match query_find root (u "#Étymologie") with
  | Raise _ => d
  | Ok etym =>
    let d1 :=
      match etym with
      | _ :: _ => sset d (u "#Étymologie") []
      | [] => d
      end in
    match (titredef <- query_find root (u ".titredef") ;;
           t <- first titredef ;;
           match getparent (fst t) with
           | None => Raise AttributeError
           | Some pp =>
             match node_at root pp with
             | None => Raise AttributeError
             | Some parent => attrib_item parent (u "id")
             end
           end)%result with
    | Ok (c :: i) => sset d1 (u "#" ++ c :: i) []
    | _ => d1
    end
  end.

(** The substrings that make [get_parts_of_speech] leave a section out. *)
Definition useless_words : list str :=
  map u ["Étymologie"; "Prononciation"; "Références"; "Voir_aussi";
         "Anagrammes"; "Liens_externes"; "Erreur"]%string.

End Vocabulary.

(** * Properties *)

(** ** Strings and dictionaries *)

Lemma str_eqb_eq (s t : str) : str_eqb s t = true <-> s = t.
Proof.
  revert t; induction s as [|a s IH]; intros [|b t]; simpl;
    try (split; [discriminate | congruence]); [tauto|].
  unfold char_eqb; rewrite andb_true_iff, N.eqb_eq, IH.
  split; [intros [-> ->]; reflexivity | intros H; inversion H; auto].
Qed.

Lemma str_eqb_refl (s : str) : str_eqb s s = true.
Proof. apply str_eqb_eq; reflexivity. Qed.

Lemma str_eqb_neq (s t : str) : str_eqb s t = false <-> s <> t.
Proof.
  rewrite <- str_eqb_eq; destruct (str_eqb s t); split; congruence.
Qed.

Lemma key_eqb_eq (a b : key) : key_eqb a b = true <-> a = b.
Proof.
  destruct a, b; simpl; try (split; [discriminate | congruence]).
  - rewrite str_eqb_eq; split; congruence.
  - rewrite Nat.eqb_eq; split; congruence.
Qed.

Lemma key_eqb_refl (a : key) : key_eqb a a = true.
Proof. apply key_eqb_eq; reflexivity. Qed.

Lemma startswith_refl (s : str) : startswith s s = true.
Proof.
  induction s as [|a s IH]; simpl; [reflexivity|].
  unfold char_eqb; rewrite N.eqb_refl; exact IH.
Qed.

Lemma contains_suffix (pre s : str) : contains s (pre ++ s) = true.
Proof.
  induction pre as [|a pre IH]; simpl.
  - destruct s; simpl; [reflexivity|].
    unfold char_eqb; rewrite N.eqb_refl, startswith_refl; reflexivity.
  - rewrite IH; apply orb_true_r.
Qed.

Section DictFacts.
Variables (K V : Type) (eqb : K -> K -> bool).
Hypothesis eqb_eq : forall a b, eqb a b = true <-> a = b.

Lemma get_absent (d : Dict.dict K V) (k : K) :
  Dict.get eqb d k = None <-> ~ In k (Dict.keys d).
Proof.
  induction d as [|[k' v] d IH]; simpl; [tauto|].
  destruct (eqb k' k) eqn:E.
  - apply eqb_eq in E; split; [discriminate | tauto].
  - rewrite IH; split; [intros H [H'|H']; [|tauto] | tauto].
    apply eqb_eq in H'; congruence.
Qed.

Lemma get_set_same (d : Dict.dict K V) (k : K) (v : V) :
  Dict.get eqb (Dict.set eqb d k v) k = Some v.
Proof.
  assert (R : eqb k k = true) by (apply eqb_eq; reflexivity).
  induction d as [|[k' v'] d IH]; simpl; [rewrite R; reflexivity|].
  destruct (eqb k' k) eqn:E; simpl; rewrite E; auto.
Qed.

Lemma get_set_other (d : Dict.dict K V) (k k' : K) (v : V) :
  k <> k' -> Dict.get eqb (Dict.set eqb d k v) k' = Dict.get eqb d k'.
Proof.
  intros N.
  assert (F : eqb k k' = false).
  { destruct (eqb k k') eqn:E; [apply eqb_eq in E; congruence | reflexivity]. }
  induction d as [|[k0 v0] d IH]; simpl; [rewrite F; reflexivity|].
  destruct (eqb k0 k) eqn:E; simpl.
  - apply eqb_eq in E; subst k0; rewrite F; reflexivity.
  - rewrite IH; reflexivity.
Qed.

End DictFacts.

Lemma sget_set_same (V : Type) (d : sdict V) (k : str) (v : V) :
  sget (sset d k v) k = Some v.
Proof. apply (@get_set_same str V str_eqb str_eqb_eq). Qed.

Lemma sget_set_other (V : Type) (d : sdict V) (k k' : str) (v : V) :
  k <> k' -> sget (sset d k v) k' = sget d k'.
Proof. apply (@get_set_other str V str_eqb str_eqb_eq). Qed.

(** ** The language table *)

(** C8: a code that is not a key of the table raises [KeyError] with a
    message that ends with, hence contains, the code; a code that is a key
    gives the name stored for it. *)
Theorem get_language_name_spec (languages_json : sdict str) (lang_code : str) :
  (~ In lang_code (Dict.keys languages_json) ->
   exists msg,
     get_language_name languages_json lang_code = Raise (KeyError msg)
     /\ msg = u "Language code unknown : " ++ lang_code
     /\ contains lang_code msg = true)
  /\ (forall name,
        sget languages_json lang_code = Some name ->
        get_language_name languages_json lang_code = Ok name).
Proof.
  unfold get_language_name; split.
  - intros H; apply (@get_absent _ _ str_eqb str_eqb_eq) in H.
    unfold sget; rewrite H; eexists; split; [reflexivity|].
    split; [reflexivity | apply contains_suffix].
  - intros name H; rewrite H; reflexivity.
Qed.

Lemma get_language_name_spec_witness :
  (exists msg,
     get_language_name sample_languages (u "xx") = Raise (KeyError msg)
     /\ msg = u "Language code unknown : " ++ u "xx"
     /\ contains (u "xx") msg = true)
  /\ get_language_name sample_languages (u "en") = Ok (u "Anglais").
Proof.
  split.
  - apply (proj1 (get_language_name_spec sample_languages (u "xx"))).
    vm_compute; intuition discriminate.
  - apply (proj2 (get_language_name_spec sample_languages (u "en"))).
    reflexivity.
Defined.

(** ** The language setter *)

Section Setter.
Context {U : Unicode} {Q : PyQuery}.

Lemma without_summary_language (self : parser) :
  _language (snd (_find_sections_id_without_summary self)) = _language self.
Proof.
  unfold _find_sections_id_without_summary.
  repeat match goal with
         | |- context [match ?x with _ => _ end] => destruct x; simpl
         end; reflexivity.
Qed.

Lemma find_lang_language (self : parser) :
  _language (snd (_find_lang_sections_id self)) = _language self.
Proof.
  unfold _find_lang_sections_id.
  destruct (query_find (_query self) (u ".toc")) as [[|t toc]|e];
    [|destruct (query_find (_query self) (u "a")) as [links|e'] |];
    try reflexivity.
  - pose proof (without_summary_language self) as H.
    destruct (_find_sections_id_without_summary self); exact H.
  - destruct (List.find _ links); [|reflexivity].
    destruct (chain_from (_query self) (fst p)) as [|x [|next chain]];
      try reflexivity.
    destruct (toc_loop (getchildren next) []); reflexivity.
Qed.

Lemma set_language_language (self : parser) (c : char) (rest : str) :
  _language (snd (set_language self (c :: rest))) = upper c ++ rest.
Proof.
  unfold set_language.
  pose proof (find_lang_language (with_language self (upper c ++ rest))) as H.
  destruct (_find_lang_sections_id _); exact H.
Qed.

Lemma init_language (languages_json : sdict str) (html : node)
      (lang_code : option str) (language : str) (self' : parser)
      (c : char) (rest : str) :
  match lang_code with
  | Some (k :: code) => get_language_name languages_json (k :: code)
  | _ => Ok language
  end = Ok (c :: rest) ->
  init languages_json html lang_code language = Ok self' ->
  _language self' = upper c ++ rest.
Proof.
  intros Hl; unfold init; rewrite Hl; unfold bind; cbv beta iota.
  pose proof (set_language_language
                {| _query := html; sections_id := []; _language := [];
                   pronunciation := []; gender := [] |} c rest) as H.
  destruct (set_language _ (c :: rest)) as [[[]|e] self1]; simpl;
    [|discriminate].
  intros E; inversion E; subst self'; exact H.
Qed.

(** C10 (amended): the setter stores the first character uppercased followed
    by the rest of the input, whatever the scan of the page does afterwards;
    an object built by the constructor without language code holds the same
    for its [language] argument, and one built with a language code holds it
    for the name the code stands for, its [language] argument being ignored;
    ['français'] and ['Français'] leave the object in the same state; the
    empty string raises [IndexError] and changes nothing. *)
Theorem language_is_capitalized (languages_json : sdict str) (html : node)
        (self : parser) (c : char) (rest : str) :
  _language (snd (set_language self (c :: rest))) = upper c ++ rest
  /\ (forall self',
        init languages_json html None (c :: rest) = Ok self' ->
        _language self' = upper c ++ rest)
  /\ (upper 102%N = [70%N] -> upper 70%N = [70%N] ->
      set_language self (u "français") = set_language self (u "Français"))
  /\ set_language self [] = (Raise IndexError, self)
  /\ (forall k code language self',
        sget languages_json (k :: code) = Some (c :: rest) ->
        init languages_json html (Some (k :: code)) language = Ok self' ->
        _language self' = upper c ++ rest).
Proof.
  split; [apply set_language_language|].
  split; [|split; [|split; [reflexivity|]]].
  - intros self'; apply init_language; reflexivity.
  - intros Hf HF.
    change (u "français") with (102%N :: u "rançais").
    change (u "Français") with (70%N :: u "rançais").
    unfold set_language; rewrite Hf, HF; reflexivity.
  - intros k code language self' Hs; apply init_language.
    unfold get_language_name; rewrite Hs; reflexivity.
Qed.

End Setter.

Lemma language_is_capitalized_witness :
  exists self' self'',
    init (U := ascii_unicode) sample_languages sample_page None (u "français")
    = Ok self'
    /\ _language self' = u "Français"
    /\ set_language (U := ascii_unicode) self' (u "français")
       = set_language (U := ascii_unicode) self' (u "Français")
    /\ init (U := ascii_unicode) sample_languages sample_page
             (Some (u "en")) (u "français") = Ok self''
    /\ _language self'' = u "Anglais".
Proof.
  eexists; eexists; split; [vm_compute; reflexivity|]; split; [|split].
  - apply (proj1 (proj2 (@language_is_capitalized ascii_unicode
             sample_languages sample_page
             {| _query := sample_page; sections_id := []; _language := [];
                pronunciation := []; gender := [] |}
             102%N (u "rançais")))
             _).
    vm_compute; reflexivity.
  - apply (proj1 (proj2 (proj2 (@language_is_capitalized
             ascii_unicode sample_languages sample_page _
             102%N (u "rançais")))));
      reflexivity.
  - split; [vm_compute; reflexivity|].
    apply (proj2 (proj2 (proj2 (proj2 (@language_is_capitalized
             ascii_unicode sample_languages sample_page
             (new_parser sample_page) 65%N (u "nglais")))))
             101%N (u "n") (u "français"));
      vm_compute; reflexivity.
Defined.

(** C10 as stated fails for the constructor: with the language code ['en']
    the language ['français'] given beside it is not looked at, and the
    object holds ['Anglais']. *)
Lemma constructor_ignores_language_with_code :
  exists self',
    init (U := ascii_unicode) sample_languages sample_page (Some (u "en"))
         (u "français") = Ok self'
    /\ _language self' = u "Anglais"
    /\ _language self' <> upper (Unicode := ascii_unicode) 102%N
                           ++ u "rançais".
Proof.
  eexists; split; [vm_compute; reflexivity|].
  split; [vm_compute; reflexivity | vm_compute; discriminate].
Qed.

(** ** The boundary walk *)

Section Walk.
Context {U : Unicode}.

Lemma get_notes_loop_end (chain : list node) (text : list str) :
  no_heading chain = true -> get_notes_loop chain text = Raise AttributeError.
Proof.
  revert text; induction chain as [|n chain IH]; intros text; simpl;
    [reflexivity|].
  destruct (is_heading n); simpl; [discriminate | auto].
Qed.

Lemma get_notes_loop_heading (pre post : list node) (h : node)
      (text : list str) :
  no_heading pre = true -> is_heading h = true ->
  get_notes_loop (pre ++ h :: post) text
  = Ok (join [10%N] (text ++ map text_content pre)).
Proof.
  intros Hpre Hh; revert text Hpre.
  induction pre as [|n pre IH]; intros text; simpl.
  - rewrite Hh, app_nil_r; reflexivity.
  - destruct (is_heading n); simpl; [discriminate|].
    intros Hpre; rewrite IH by assumption.
    rewrite <- app_assoc; reflexivity.
Qed.

Lemma extract_related_loop_heading (pre post : list node) (h : node)
      (count : nat) (related : vdict) :
  is_heading h = true ->
  extract_related_loop (pre ++ h :: post) count related
  = extract_related_loop pre count related.
Proof.
  intros Hh; revert count related.
  induction pre as [|n pre IH]; intros count related; simpl.
  - rewrite Hh; reflexivity.
  - destruct (is_heading n); [reflexivity|].
    destruct (is_comment n); simpl; [apply IH|].
    destruct (related_entry n); simpl; [apply IH | reflexivity].
Qed.

End Walk.

(** C1: on [notes_page] the paragraph of the [Notes] subsection is the last
    node of its sibling chain.  [get_notes] walks off the end of the chain and
    raises [AttributeError], and so does [get_related_words] for ['Notes'];
    [extract_related_words], which tests for the end of the chain, returns
    its entries on the same chain. *)
Theorem get_notes_fails_at_end_of_chain :
  let chain := [elt "p" [] "Ce mot est familier." []] in
  get_notes chain = Raise AttributeError
  /\ extract_related_words chain
     = Ok [(KInt 0, VDict [(KStr (u "description"), VStr []);
                           (KStr (u "words"), VList [])])]
  /\ exists self,
       init (U := ascii_unicode) sample_languages notes_page None
            (u "Français") = Ok self
       /\ sections_id self = [(u "#Nom_commun", [u "#Notes"])]
       /\ get_related_words (U := ascii_unicode) (Q := plain_text)
                            self (u "Notes") = Raise AttributeError.
Proof.
  split; [reflexivity|]; split; [vm_compute; reflexivity|].
  eexists; split; [vm_compute; reflexivity|]; split; vm_compute; reflexivity.
Qed.

(** C7: a link without [href] in a related-words node makes
    [extract_related_words] raise [TypeError]; a page without table of
    contents and without word title makes the fallback scan, and with it the
    constructor, raise [IndexError]. *)
Theorem missing_attribute_or_node_raises :
  extract_related_words [bare_link_list] = Raise TypeError
  /\ fst (_find_sections_id_without_summary (new_parser bare_page))
     = Raise IndexError
  /\ init (U := ascii_unicode) sample_languages bare_page None (u "Français")
     = Raise IndexError.
Proof. repeat split; vm_compute; reflexivity. Qed.

(** ** The section index *)

Section Index.
Context {U : Unicode}.

(** The three paths of [_find_lang_sections_id]. *)
Lemma find_lang_absent (self : parser) (t : path * node)
      (toc links : list (path * node)) :
  query_find (_query self) (u ".toc") = Ok (t :: toc) ->
  query_find (_query self) (u "a") = Ok links ->
  List.find
    (is_lang_link (u "#" ++ replace_char 32%N (u "_") (_language self)))
    links = None ->
  _find_lang_sections_id self = (Ok None, self).
Proof.
  intros Ht Hl Hf; unfold _find_lang_sections_id.
  rewrite Ht, Hl, Hf; reflexivity.
Qed.

Lemma find_lang_found (self : parser) (t lang : path * node)
      (toc links : list (path * node)) (x next : node) (chain : list node) :
  query_find (_query self) (u ".toc") = Ok (t :: toc) ->
  query_find (_query self) (u "a") = Ok links ->
  List.find
    (is_lang_link (u "#" ++ replace_char 32%N (u "_") (_language self)))
    links = Some lang ->
  chain_from (_query self) (fst lang) = x :: next :: chain ->
  sections_id (snd (_find_lang_sections_id self))
  = snd (toc_loop (getchildren next) []).
Proof.
  intros Ht Hl Hf Hc; unfold _find_lang_sections_id.
  rewrite Ht, Hl, Hf, Hc.
  destruct (toc_loop (getchildren next) []); reflexivity.
Qed.

End Index.

(** C3: [sample_page] lists two languages.  Built for ['Français'] the index
    has the three French sections; set to ['anglais'] it holds the English
    section alone; set to ['Allemand'], which the page does not have, the
    setter returns normally and the French index is still there. *)
Theorem absent_language_keeps_previous_index :
  exists self,
    init (U := ascii_unicode) sample_languages sample_page None (u "Français")
    = Ok self
    /\ sections_id self
       = [(u "#Étymologie", []);
          (u "#Nom_commun", [u "#Synonymes"; u "#Traductions"]);
          (u "#Références", [])]
    /\ sections_id (snd (set_language (U := ascii_unicode) self (u "anglais")))
       = [(u "#Nom_commun_2", [])]
    /\ set_language (U := ascii_unicode) self (u "Allemand")
       = (Ok tt, with_language self (u "Allemand"))
    /\ sections_id (with_language self (u "Allemand")) = sections_id self.
Proof.
  eexists; split; [vm_compute; reflexivity|].
  repeat split; vm_compute; reflexivity.
Qed.

(** ** Inserting related words *)

Lemma vget_set_same (d : vdict) (k : key) (v : value) :
  vget (vset d k v) k = Some v.
Proof. apply (@get_set_same key value key_eqb key_eqb_eq). Qed.

Lemma vget_set_other (d : vdict) (k k' : key) (v : value) :
  k <> k' -> vget (vset d k v) k' = vget d k'.
Proof. apply (@get_set_other key value key_eqb key_eqb_eq). Qed.

Lemma vset_vset (d : vdict) (k : key) (v w : value) :
  vset (vset d k v) k w = vset d k w.
Proof.
  unfold vset; induction d as [|[k' v'] d IH]; simpl.
  - rewrite key_eqb_refl; reflexivity.
  - destruct (key_eqb k' k) eqn:E; simpl; rewrite E; [reflexivity|].
    rewrite IH; reflexivity.
Qed.

Lemma last_cons (A : Type) (l : list A) (a d : A) :
  last (a :: l) d = last l a.
Proof.
  revert a d; induction l as [|b l IH]; intros a d; [reflexivity|].
  change (last (a :: b :: l) d) with (last (b :: l) d).
  rewrite (IH b d), (IH b a); reflexivity.
Qed.

Lemma insert_groups_fresh (part : str) (related : vdict) :
  forall (parts_of_speech : vdict) (group : key * value),
    fresh_groups parts_of_speech part (group :: related) ->
    insert_groups part parts_of_speech (group :: related)
    = Ok (vset parts_of_speech (KStr part)
               (snd (last related group))).
Proof.
  induction related as [|g related IH]; intros pos group F.
  - simpl; unfold insert_group.
    destruct (F group (or_introl eq_refl)) as [-> _]; reflexivity.
  - change (insert_groups part pos (group :: g :: related))
      with (bind (insert_group part pos group)
                 (fun pos' => insert_groups part pos' (g :: related))).
    unfold insert_group at 1.
    destruct (F group (or_introl eq_refl)) as [-> _].
    cbv beta iota delta [bind].
    rewrite IH.
    + rewrite vset_vset, (last_cons related g group); reflexivity.
    + intros g' Hg'; destruct (F g' (or_intror Hg')) as [A B]; split; auto.
      rewrite (vget_set_other _ _ (fun E => B (eq_sym E))).
      exact A.
Qed.

(** When no group of [related] has its parent-section name among the keys of
    the result mapping, nor the category label for name, the value of the
    last group ends up at the top level under the category label [part], and
    every other key is left as it was. *)
Theorem insert_related_words_top_level (parts_of_speech : vdict) (part : str)
        (group : key * value) (related : vdict) :
  fresh_groups parts_of_speech part (group :: related) ->
  exists result,
    insert_related_words parts_of_speech part (group :: related) = Ok result
    /\ vget result (KStr part) = Some (snd (last related group))
    /\ (forall k, k <> KStr part -> vget result k = vget parts_of_speech k).
Proof.
  intros F; eexists; split.
  - unfold insert_related_words; apply insert_groups_fresh; exact F.
  - split; [apply vget_set_same|].
    intros k Hk; apply vget_set_other; congruence.
Qed.

Lemma insert_related_words_top_level_witness :
  exists result,
    insert_related_words
      [(KStr (u "Nom commun"), VDict []); (KStr (u "Synonymes"), VStr (u "-"))]
      (u "Synonymes")
      [(KStr (u "Locution"), VList [u "matou"]);
       (KStr (u "Adjectif"), VList [u "minet"])] = Ok result
    /\ vget result (KStr (u "Synonymes")) = Some (VList [u "minet"])
    /\ (forall k, k <> KStr (u "Synonymes") ->
        vget result k
        = vget [(KStr (u "Nom commun"), VDict []);
                (KStr (u "Synonymes"), VStr (u "-"))] k).
Proof.
  apply (@insert_related_words_top_level
           [(KStr (u "Nom commun"), VDict []);
            (KStr (u "Synonymes"), VStr (u "-"))]
           (u "Synonymes")
           (KStr (u "Locution"), VList [u "matou"])
           [(KStr (u "Adjectif"), VList [u "minet"])]).
  intros g [<-|[<-|[]]]; split; vm_compute; congruence.
Defined.

Lemma insert_groups_app (part : str) (pre post : vdict) :
  forall parts_of_speech,
    insert_groups part parts_of_speech (pre ++ post)
    = bind (insert_groups part parts_of_speech pre)
           (fun before => insert_groups part before post).
Proof.
  induction pre as [|g pre IH]; intros pos; simpl; [reflexivity|].
  destruct (insert_group part pos g) as [pos'|e]; simpl; [apply IH|].
  reflexivity.
Qed.

Lemma insert_related_words_groups (parts_of_speech : vdict) (part : str)
      (related : vdict) :
  insert_related_words parts_of_speech part related
  = insert_groups part parts_of_speech related.
Proof. destruct related; reflexivity. Qed.

(** C9: let [before] be the result mapping when a group of the category is
    reached (the mapping given to [insert_related_words] for the first
    group).  When the parent-section name of the group is not a key of
    [before], the value of the group is stored at the top level under the
    key of the category, [part], replacing any value that key had; it is not
    nested under a part of speech and no other key changes.  The groups that
    follow are inserted into that mapping; when there is none, it is the
    result. *)
Theorem insert_related_words_absent_key (parts_of_speech before : vdict)
        (part : str) (pre post : vdict) (name : key) (values : value) :
  insert_groups part parts_of_speech pre = Ok before ->
  vget before name = None ->
  insert_related_words parts_of_speech part (pre ++ (name, values) :: post)
  = insert_groups part (vset before (KStr part) values) post
  /\ (post = [] ->
      insert_related_words parts_of_speech part (pre ++ [(name, values)])
      = Ok (vset before (KStr part) values))
  /\ vget (vset before (KStr part) values) (KStr part) = Some values
  /\ (forall k, k <> KStr part ->
        vget (vset before (KStr part) values) k = vget before k).
Proof.
  intros Hpre Hname.
  assert (E : forall post',
             insert_related_words parts_of_speech part
                                  (pre ++ (name, values) :: post')
             = insert_groups part (vset before (KStr part) values) post').
  { intros post'; rewrite insert_related_words_groups, insert_groups_app.
    rewrite Hpre; simpl; unfold insert_group; simpl fst; simpl snd.
    rewrite Hname; reflexivity. }
  split; [apply E|]; split; [intros _; apply (E [])|].
  split; [apply vget_set_same|].
  intros k Hk; apply vget_set_other; congruence.
Qed.

Lemma insert_related_words_absent_key_witness :
  insert_related_words
    [(KStr (u "Nom commun"), VDict []); (KStr (u "Synonymes"), VStr (u "-"))]
    (u "Synonymes") [(KStr (u "Locution"), VList [u "matou"])]
  = Ok [(KStr (u "Nom commun"), VDict []);
        (KStr (u "Synonymes"), VList [u "matou"])]
  /\ insert_related_words
       [(KStr (u "Nom commun"), VDict [])] (u "Synonymes")
       ([(KStr (u "Nom commun"), VList [u "minet"])]
        ++ [(KStr (u "Locution"), VList [u "matou"])])
     = Ok [(KStr (u "Nom commun"),
            VDict [(KStr (u "Synonymes"), VList [u "minet"])]);
           (KStr (u "Synonymes"), VList [u "matou"])].
Proof.
  split.
  - apply (proj1 (proj2 (@insert_related_words_absent_key
             [(KStr (u "Nom commun"), VDict []);
              (KStr (u "Synonymes"), VStr (u "-"))]
             [(KStr (u "Nom commun"), VDict []);
              (KStr (u "Synonymes"), VStr (u "-"))]
             (u "Synonymes") [] [] (KStr (u "Locution"))
             (VList [u "matou"]) eq_refl eq_refl)) eq_refl).
  - apply (proj1 (proj2 (@insert_related_words_absent_key
             [(KStr (u "Nom commun"), VDict [])]
             [(KStr (u "Nom commun"),
               VDict [(KStr (u "Synonymes"), VList [u "minet"])])]
             (u "Synonymes")
             [(KStr (u "Nom commun"), VList [u "minet"])] []
             (KStr (u "Locution")) (VList [u "matou"])
             eq_refl eq_refl)) eq_refl).
Defined.

(** ** Substitution and the etymology cleaner *)

Section Cleaner.
Context {U : Unicode}.

Lemma many_suffix (k : cls) (s rest : str) :
  In rest (many k s) -> exists pre, s = pre ++ rest.
Proof.
  induction s as [|c s IH]; simpl.
  - intros [<-|[]]; exists []; reflexivity.
  - destruct (cls_ok k c).
    + rewrite in_app_iff; intros [H|[<-|[]]]; [|exists []; reflexivity].
      destruct (IH H) as [pre ->]; exists (c :: pre); reflexivity.
    + intros [<-|[]]; exists []; reflexivity.
Qed.

Lemma rests_suffix (r : re) :
  forall s rest, In rest (rests r s) -> exists pre, s = pre ++ rest.
Proof.
  induction r as [|k|k|r1 IH1 r2 IH2|r IH]; intros s rest; simpl.
  - intros [<-|[]]; exists []; reflexivity.
  - destruct s as [|c s]; [intros []|].
    destruct (cls_ok k c); [|intros []].
    intros [<-|[]]; exists [c]; reflexivity.
  - apply many_suffix.
  - rewrite in_flat_map; intros [mid [H1 H2]].
    destruct (IH1 _ _ H1) as [p1 ->], (IH2 _ _ H2) as [p2 ->].
    exists (p1 ++ p2); rewrite app_assoc; reflexivity.
  - rewrite in_app_iff; intros [H|[<-|[]]]; [auto | exists []; reflexivity].
Qed.

Lemma consuming_one (k : cls) : consuming (One k).
Proof.
  intros [|c s] rest; simpl; [intros []|].
  destruct (cls_ok k c); [|intros []].
  intros [<-|[]]; simpl; lia.
Qed.

Lemma consuming_cat (r1 r2 : re) : consuming r1 -> consuming (Cat r1 r2).
Proof.
  intros C s rest; simpl; rewrite in_flat_map; intros [mid [H1 H2]].
  apply C in H1; destruct (rests_suffix _ _ _ H2) as [p ->].
  rewrite length_app in H1; lia.
Qed.

Lemma match_at_inv (p : pattern) (b : bool) (s rest : str) :
  match_at p b s = Some rest ->
  In rest (rests (body p) s)
  /\ (eol p = true -> at_eol rest = true)
  /\ (bol p = true -> b = true).
Proof.
  unfold match_at; destruct (bol p), b; simpl; try discriminate;
    intros H; apply find_some in H; destruct H as [H1 H2];
    (split; [exact H1 | split; [|auto]]);
    intros E; rewrite E in H2; exact H2.
Qed.

Lemma sub_loop_skip (p : pattern) (k : nat) (s : str) :
  sub_loop p false k s = sub_loop p false 0 (skipn k s).
Proof.
  revert k; induction s as [|c s IH]; intros [|k]; simpl; auto.
Qed.

Lemma search_from_none (p : pattern) (s : str) :
  forall b, search_from p b s = false -> sub_loop p b 0 s = s.
Proof.
  induction s as [|c s IH]; intros b; simpl; [reflexivity|].
  destruct (match_at p b (c :: s)); [discriminate|].
  intros H; rewrite (IH false H); reflexivity.
Qed.

Lemma sub_loop_length (p : pattern) (s : str) :
  forall b k, length (sub_loop p b k s) <= length s.
Proof.
  induction s as [|c s IH]; intros b [|k]; simpl; auto.
  destruct (match_at p b (c :: s)); simpl.
  - specialize (IH false (length s - length s0)); lia.
  - specialize (IH false 0); lia.
Qed.

Lemma search_from_some (p : pattern) (s : str) :
  consuming (body p) ->
  forall b, search_from p b s = true -> length (sub_loop p b 0 s) < length s.
Proof.
  intros C; induction s as [|c s IH]; intros b; simpl.
  - destruct (match_at p b []) eqn:E; [|discriminate].
    apply match_at_inv in E; destruct E as [E _].
    apply C in E; simpl in E; lia.
  - destruct (match_at p b (c :: s)).
    + intros _.
      pose proof (sub_loop_length p s false (length s - length s0)); lia.
    + intros H; apply IH in H; simpl; lia.
Qed.

Lemma bol_search_false (p : pattern) (s : str) :
  bol p = true -> search_from p false s = false.
Proof.
  intros B; induction s as [|c s IH]; simpl; unfold match_at; rewrite B;
    simpl; auto.
Qed.

End Cleaner.

Section CleanerIdempotence.
Context {U : Unicode}.

Lemma head_one_consuming (r : re) : head_one r = true -> consuming r.
Proof.
  induction r as [|k|k|r1 IH1 r2 _|r _]; simpl; try discriminate.
  - intros _; apply consuming_one.
  - intros H; apply consuming_cat, IH1, H.
Qed.

Lemma consuming_etym_1 : consuming (body ignore_etym_1).
Proof. apply head_one_consuming; vm_compute; reflexivity. Qed.

Lemma consuming_etym_2 : consuming (body ignore_etym_2).
Proof. apply head_one_consuming; vm_compute; reflexivity. Qed.

Lemma etymology_cleaner_eq (e : str) :
  etymology_cleaner e = sub ignore_etym_2 (sub ignore_etym_1 e).
Proof. reflexivity. Qed.

(** A string is left as it is exactly when neither rule finds a match. *)
Lemma etymology_cleaner_fixpoint (x : str) :
  etymology_cleaner x = x <->
  search ignore_etym_1 x = false /\ search ignore_etym_2 x = false.
Proof.
  rewrite etymology_cleaner_eq; unfold sub, search; split.
  - intros H.
    pose proof (sub_loop_length ignore_etym_2
                  (sub_loop ignore_etym_1 true 0 x) true 0) as L2.
    pose proof (sub_loop_length ignore_etym_1 x true 0) as L1.
    destruct (search_from ignore_etym_1 true x) eqn:E1.
    + apply (@search_from_some U _ x consuming_etym_1) in E1.
      rewrite H in L2; lia.
    + rewrite (search_from_none _ _ _ E1) in H; split; [reflexivity|].
      destruct (search_from ignore_etym_2 true x) eqn:E2; [|reflexivity].
      apply (@search_from_some U _ x consuming_etym_2) in E2.
      rewrite H in E2; lia.
  - intros [E1 E2].
    rewrite (search_from_none _ _ _ E1); apply search_from_none, E2.
Qed.

Lemma at_eol_inv (s : str) : at_eol s = true -> s = [] \/ s = [10%N].
Proof.
  destruct s as [|c [|d s]]; simpl; auto; [|discriminate].
  unfold char_eqb; rewrite N.eqb_eq; intros ->; auto.
Qed.

Lemma skipn_suffix (pre rest : str) :
  skipn (length (pre ++ rest) - length rest) (pre ++ rest) = rest.
Proof.
  rewrite length_app.
  replace (length pre + length rest - length rest) with (length pre) by lia.
  rewrite skipn_app, skipn_all, Nat.sub_diag; reflexivity.
Qed.

(** The first rule is anchored at both ends: it leaves the string alone or
    leaves at most the final line feed. *)
Lemma sub_etym_1_cases (e : str) :
  sub ignore_etym_1 e = e \/ sub ignore_etym_1 e = []
  \/ sub ignore_etym_1 e = [10%N].
Proof.
  unfold sub; destruct e as [|c s]; [left; reflexivity|].
  simpl sub_loop.
  destruct (match_at ignore_etym_1 true (c :: s)) as [rest|] eqn:E.
  - right.
    apply match_at_inv in E; destruct E as [Hin [Heol _]].
    destruct (rests_suffix _ _ _ Hin) as [pre Hpre].
    apply consuming_etym_1 in Hin.
    destruct pre as [|c' pre];
      [simpl in Hpre; rewrite <- Hpre in Hin; simpl in Hin; lia|].
    inversion Hpre; subst c' s.
    rewrite sub_loop_skip, skipn_suffix.
    rewrite (search_from_none ignore_etym_1 rest false
               (@bol_search_false U ignore_etym_1 rest eq_refl)).
    apply at_eol_inv, Heol; reflexivity.
  - left; f_equal.
    apply search_from_none.
    apply (@bol_search_false U ignore_etym_1 s eq_refl).
Qed.

(** C6 (amended): cleaning twice gives what cleaning once gives exactly when
    the cleaned text has no match of either rule left; this is so for every
    text without the marker ['(Siècle à préciser)'] followed by a no-break
    space. *)
Theorem etymology_cleaner_idempotent (e : str) :
  (etymology_cleaner (etymology_cleaner e) = etymology_cleaner e <->
   search ignore_etym_1 (etymology_cleaner e) = false
   /\ search ignore_etym_2 (etymology_cleaner e) = false)
  /\ (search ignore_etym_2 e = false ->
      etymology_cleaner (etymology_cleaner e) = etymology_cleaner e).
Proof.
  split; [apply etymology_cleaner_fixpoint|].
  intros H.
  assert (C : etymology_cleaner e = e \/ etymology_cleaner e = []
              \/ etymology_cleaner e = [10%N]).
  { rewrite etymology_cleaner_eq.
    destruct (sub_etym_1_cases e) as [->|[->| ->]]; auto.
    left; apply search_from_none, H. }
  destruct C as [C|[C|C]]; rewrite C;
    [exact C | vm_compute; reflexivity | vm_compute; reflexivity].
Qed.

End CleanerIdempotence.

Lemma etymology_cleaner_idempotent_witness :
  let e := u "Du latin cattus." in
  etymology_cleaner (U := ascii_unicode)
    (etymology_cleaner (U := ascii_unicode) e)
  = etymology_cleaner (U := ascii_unicode) e.
Proof.
  apply (proj2 (@etymology_cleaner_idempotent ascii_unicode
                  (u "Du latin cattus."))).
  vm_compute; reflexivity.
Defined.

(** C6 as stated fails: with the marker in front of the placeholder sentence
    the first pass removes the marker only, the second removes the
    sentence. *)
Lemma etymology_cleaner_not_idempotent :
  let e := u "(Siècle à préciser)" ++ [160%N]
           ++ u "Étymologie manquante ou incomplète. Si vous la connaissez, vous pouvez l’ajouter en cliquant ici." in
  etymology_cleaner (U := ascii_unicode) e
  = u "Étymologie manquante ou incomplète. Si vous la connaissez, vous pouvez l’ajouter en cliquant ici."
  /\ etymology_cleaner (U := ascii_unicode)
       (etymology_cleaner (U := ascii_unicode) e) = []
  /\ etymology_cleaner (U := ascii_unicode)
       (etymology_cleaner (U := ascii_unicode) e)
     <> etymology_cleaner (U := ascii_unicode) e.
Proof.
  repeat split; try (vm_compute; reflexivity).
  vm_compute; discriminate.
Qed.

(** ** Definitions *)

Section Definitions.
Context {U : Unicode}.

Lemma walk_to_ol_find (chain : list node) :
  forall pg,
    hd_error (fst (walk_to_ol chain pg)) = List.find (tag_is (u "ol")) chain.
Proof.
  induction chain as [|n chain IH]; intros pg; simpl; [reflexivity|].
  destruct (tag_is (u "ol") n); [reflexivity | apply IH].
Qed.

Lemma find_first (A : Type) (f : A -> bool) (pre post : list A) (x : A) :
  forallb (fun y => negb (f y)) pre = true -> f x = true ->
  List.find f (pre ++ x :: post) = Some x.
Proof.
  intros Hpre Hx; induction pre as [|y pre IH]; simpl in *.
  - rewrite Hx; reflexivity.
  - apply andb_true_iff in Hpre; destruct Hpre as [Hy Hpre].
    destruct (f y); [discriminate | auto].
Qed.

(** C2 (amended): from the parent of the anchor, [get_definitions] returns
    the definitions of the first [ol] of the sibling chain, whatever nodes,
    headings included, come before it, and the empty mapping when the chain
    has no [ol]. *)
Theorem get_definitions_first_ol (self : parser) (part_of_speech : str)
        (anchor : path * node) (found : list (path * node)) (parent : path) :
  query_find (_query self) (section_slug part_of_speech)
  = Ok (anchor :: found) ->
  getparent (fst anchor) = Some parent ->
  fst (get_definitions self part_of_speech)
  = Ok match List.find (tag_is (u "ol")) (chain_from (_query self) parent) with
       | Some ol => definitions_loop 0 (getchildren ol) []
       | None => []
       end
  /\ (forall pre ol post,
        chain_from (_query self) parent = pre ++ ol :: post ->
        forallb (fun n => negb (tag_is (u "ol") n)) pre = true ->
        tag_is (u "ol") ol = true ->
        fst (get_definitions self part_of_speech)
        = Ok (definitions_loop 0 (getchildren ol) [])).
Proof.
  intros Hq Hp.
  assert (E : fst (get_definitions self part_of_speech)
              = Ok match List.find (tag_is (u "ol"))
                                   (chain_from (_query self) parent) with
                   | Some ol => definitions_loop 0 (getchildren ol) []
                   | None => []
                   end).
  { unfold get_definitions; rewrite Hq; unfold bind, first.
    cbv beta iota; rewrite Hp.
    pose proof (walk_to_ol_find (chain_from (_query self) parent)
                  (pronunciation self, gender self)) as W.
    destruct (walk_to_ol _ _) as [stop pg]; simpl in W; simpl fst.
    rewrite <- W; destruct stop; reflexivity. }
  split; [exact E|].
  intros pre ol post Hc Hpre Hol.
  rewrite E, Hc, (find_first _ pre post ol Hpre Hol); reflexivity.
Qed.

End Definitions.

Lemma get_definitions_first_ol_witness :
  fst (get_definitions (U := ascii_unicode) (new_parser sample_page)
                       (u "Nom commun"))
  = Ok (definitions_loop (U := ascii_unicode) 0 (getchildren sample_ol) []).
Proof.
  refine (proj2 (@get_definitions_first_ol ascii_unicode
                   (new_parser sample_page) (u "Nom commun")
                   ([0; 5; 0], _) _ [0; 5] _ _)
                [anchor "h3" "Nom_commun" "titredef" "Nom commun";
                 sample_ligne]
                sample_ol (skipn 6 sample_body) _ _ _);
    vm_compute; reflexivity.
Defined.

(** C2 as stated fails: on [two_sections_page] the section [#Adverbe] has no
    [ol] before the heading of the next section, and [get_definitions]
    returns the definition that belongs to that next section. *)
Lemma get_definitions_walks_past_heading :
  chain_from two_sections_page [0; 0]
  = [anchor "h3" "Adverbe" "titredef" "Adverbe";
     elt "p" [] "" [elt "b" [] "chat" []];
     anchor "h3" "Nom_commun" "titredef" "Nom commun";
     elt "ol" [] "" [elt "li" [] "Animal." []]]
  /\ fst (get_definitions (U := ascii_unicode) (new_parser two_sections_page)
                          (u "#Adverbe"))
     = Ok [(KInt 0, VDict [(KStr (u "definition"), VStr (u "Animal."))])].
Proof. split; vm_compute; reflexivity. Qed.

(** ** Translations *)

(** The test applied to a node of the link chain. *)
Lemma keep_link_iff (link : node) :
  keep_link link = true <->
  attrib link <> []
  /\ match attrib_get link (u "class") with
     | None => True
     | Some c => c <> u "trad-exposant" /\ endswith (u "-Latn") c = false
     end.
Proof.
  unfold keep_link.
  destruct (attrib_get link (u "class")) as [c|].
  - destruct (str_eqb c (u "trad-exposant")) eqn:E; simpl.
    + apply str_eqb_eq in E; split; [discriminate | tauto].
    + apply str_eqb_neq in E.
      destruct (attrib link); simpl.
      * split; [discriminate | tauto].
      * rewrite negb_true_iff; split;
          [intros H; repeat split; [discriminate | exact E | exact H] | tauto].
  - simpl; destruct (attrib link); simpl.
    + split; [discriminate | tauto].
    + split; [intros _; split; [discriminate | exact I] | reflexivity].
Qed.

Lemma translations_loop_app (pre post : list node) :
  forall result,
    translations_loop (pre ++ post) result
    = translations_loop post (translations_loop pre result).
Proof.
  induction pre as [|l pre IH]; intros result; simpl; [reflexivity|].
  destruct (find (u "span") l); apply IH.
Qed.

Lemma translations_loop_keeps (name : str) (v : list str) (post : list node) :
  last_for name post ->
  forall result,
    sget result name = Some v ->
    sget (translations_loop post result) name = Some v.
Proof.
  induction post as [|l post IH]; intros L result H; simpl; [exact H|].
  assert (L' : last_for name post)
    by (intros l' sp Hin; apply L; right; exact Hin).
  destruct (find (u "span") l) as [sp|] eqn:E; [|apply IH; assumption].
  apply IH; [assumption|].
  rewrite sget_set_other; [exact H|].
  apply (L l sp); [left; reflexivity | exact E].
Qed.

(** C4 (amended): for a list item with a language span that is the last item
    of its language name, the entry of that name holds, in order, the text of
    the nodes of the item's link chain (its first direct [a] child and the
    siblings after it) that pass [keep_link]: at least one attribute, and a
    class that is absent, or is neither ['trad-exposant'] nor ends in
    ['-Latn']. *)
Theorem get_translations_links (self : parser) (translation_id : str)
        (anchor : path * node) (found : list (path * node)) (section : path)
        (before next : node) (after pre post : list node)
        (line language : node) :
  query_find (_query self) translation_id = Ok (anchor :: found) ->
  getparent (fst anchor) = Some section ->
  chain_from (_query self) section = before :: next :: after ->
  cssselect (u "li") next = Ok (pre ++ line :: post) ->
  find (u "span") line = Some language ->
  last_for (text_content language) post ->
  exists result,
    get_translations self translation_id = Ok result
    /\ sget result (text_content language)
       = Some (map text_content
                 (filter keep_link
                    (chain_at_tag (u "a") (getchildren line))))
    /\ (forall link,
          keep_link link = true <->
          attrib link <> []
          /\ match attrib_get link (u "class") with
             | None => True
             | Some c =>
               c <> u "trad-exposant" /\ endswith (u "-Latn") c = false
             end).
Proof.
  intros Hq Hp Hc Hl Hs Hlast; eexists; split; [|split].
  - unfold get_translations; rewrite Hq; unfold bind at 1; unfold first.
    unfold bind at 1; rewrite Hp, Hc, Hl; reflexivity.
  - rewrite translations_loop_app; simpl; rewrite Hs.
    apply translations_loop_keeps; [exact Hlast|].
    apply sget_set_same.
  - apply keep_link_iff.
Qed.

Lemma get_translations_links_witness :
  exists result,
    get_translations (new_parser sample_page) (u "#Traductions") = Ok result
    /\ sget result (u "Russe") = Some [u "кот"].
Proof.
  destruct (@get_translations_links (new_parser sample_page)
              (u "#Traductions")
              ([0; 10; 0],
               nth 0 (getchildren (anchor "h4" "Traductions" "" "Traductions"))
                   (Comment [] []))
              [] [0; 10]
              (anchor "h4" "Traductions" "" "Traductions")
              sample_translations (skipn 10 sample_body)
              [sample_anglais] [] sample_russe sample_russe_span)
    as [result [E [G _]]];
    try (vm_compute; reflexivity).
  - intros l sp [].
  - exists result; split; [exact E | exact G].
Defined.

(** C4 as stated fails: on [translations_page] the link ['cat'] has no class
    attribute (it has no attribute at all) and is left out, and the links of
    the first of two items of one language are replaced by those of the
    second. *)
Lemma get_translations_drops_bare_link :
  attrib_get bare_link (u "class") = None
  /\ chain_at_tag (u "a") (getchildren bare_item)
     = [bare_link; elt "a" [("href", "/wiki/feline")%string] "feline" []]
  /\ cssselect (u "li") translations_block = Ok [bare_item; second_item]
  /\ translations_loop [bare_item] [] = [(u "Anglais", [u "feline"])]
  /\ get_translations (new_parser translations_page) (u "#Traductions")
     = Ok [(u "Anglais", [u "tomcat"])].
Proof. repeat split; vm_compute; reflexivity. Qed.

(** ** Related-word subsections *)

Section RelatedIds.
Context {U : Unicode} {Q : PyQuery}.

Lemma ids_values_fold (regex : re) (name : str) (values : list str) :
  forall ids,
    ids_values regex name values ids
    = fold_left set_pair
                (map (pair name) (filter (fullmatch regex) values)) ids.
Proof.
  unfold ids_values; induction values as [|v values IH]; intros ids; simpl;
    [reflexivity|].
  destruct (fullmatch regex v); simpl; apply IH.
Qed.

Lemma ids_loop_fold (regex : re) (root : node)
      (items : list (str * list str)) :
  (forall key, In key (Dict.keys items) ->
               exists found, query_find root key = Ok found) ->
  forall ids,
    ids_loop regex root items ids
    = Ok (fold_left set_pair (matched regex root items) ids).
Proof.
  induction items as [|[key values] items IH]; intros Hq ids; simpl;
    [reflexivity|].
  destruct (Hq key (or_introl eq_refl)) as [found Hf].
  unfold section_name at 1; simpl fst; rewrite Hf; simpl bind.
  rewrite IH by (intros k Hk; apply Hq; right; exact Hk).
  rewrite fold_left_app, ids_values_fold; reflexivity.
Qed.

Lemma fold_set_pair_get (name : str) (pairs : list (str * str)) :
  forall ids,
    sget (fold_left set_pair pairs ids) name
    = fold_left (fun acc nv =>
                   if str_eqb (fst nv) name then Some (snd nv) else acc)
                pairs (sget ids name).
Proof.
  induction pairs as [|[n v] pairs IH]; intros ids; simpl; [reflexivity|].
  rewrite IH; f_equal; unfold set_pair; simpl.
  destruct (str_eqb n name) eqn:E.
  - apply str_eqb_eq in E; subst n; apply sget_set_same.
  - apply str_eqb_neq in E; apply sget_set_other; exact E.
Qed.

Lemma set_keys_nodup (ids : sdict str) (k v : str) :
  NoDup (Dict.keys ids) -> NoDup (Dict.keys (sset ids k v))
  /\ (forall x, In x (Dict.keys (sset ids k v)) -> x = k \/ In x (Dict.keys ids)).
Proof.
  unfold sset; induction ids as [|[k' v'] ids IH]; simpl.
  - intros _; split; [|intros x [->|[]]; left; reflexivity].
    apply NoDup_cons; [simpl; tauto | apply NoDup_nil].
  - intros N; inversion N as [|? ? Hn N']; subst.
    destruct (str_eqb k' k) eqn:E; simpl.
    + split; [constructor; assumption | simpl; intuition auto].
    + destruct (IH N') as [D I]; split.
      * constructor; [|exact D].
        intros H; apply I in H; destruct H as [->|H]; [|tauto].
        rewrite str_eqb_refl in E; discriminate.
      * intros x [->|H]; [simpl; auto|].
        apply I in H; simpl; tauto.
Qed.

Lemma fold_set_pair_nodup (pairs : list (str * str)) :
  forall ids, NoDup (Dict.keys ids) ->
              NoDup (Dict.keys (fold_left set_pair pairs ids)).
Proof.
  induction pairs as [|[n v] pairs IH]; intros ids N; simpl; [exact N|].
  apply IH, set_keys_nodup, N.
Qed.

(** C5 (amended): for a label without regex syntax, the result has one entry
    for each parent-section name under which a subsection matches, and the
    entry is the last subsection matched under a section of that name: two
    matched subsections under sections of one name give one entry. *)
Theorem related_words_ids_by_name (self : parser) (related_word : str) :
  existsb regex_special (replace_char 32%N (u "_") related_word) = false ->
  (forall key, In key (Dict.keys (sections_id self)) ->
               exists found, query_find (_query self) key = Ok found) ->
  exists regex ids,
    related_regex (replace_char 32%N (u "_") related_word) = Ok regex
    /\ _related_words_ids self related_word = Ok ids
    /\ NoDup (Dict.keys ids)
    /\ (forall name,
          sget ids name
          = last_match name (matched regex (_query self) (sections_id self))).
Proof.
  intros Hs Hq; unfold _related_words_ids, related_regex; rewrite Hs.
  eexists; eexists; split; [reflexivity|].
  simpl bind; rewrite (ids_loop_fold _ _ _ Hq).
  split; [reflexivity|]; split.
  - apply fold_set_pair_nodup; constructor.
  - intros name; apply fold_set_pair_get.
Qed.

End RelatedIds.

Lemma related_words_ids_by_name_witness :
  exists regex ids,
    related_regex (replace_char 32%N (u "_") (u "Synonymes")) = Ok regex
    /\ _related_words_ids (U := ascii_unicode) (Q := plain_text)
                          sample_parser (u "Synonymes") = Ok ids
    /\ NoDup (Dict.keys ids)
    /\ (forall name,
          sget ids name
          = last_match name
              (matched (U := ascii_unicode) (Q := plain_text) regex
                       sample_page (sections_id sample_parser))).
Proof.
  apply (@related_words_ids_by_name ascii_unicode plain_text sample_parser
                                    (u "Synonymes")).
  - vm_compute; reflexivity.
  - intros key H; vm_compute in H.
    destruct H as [<-|[<-|[<-|[]]]]; eexists; vm_compute; reflexivity.
Defined.

(** C5 as stated fails: on [synonyms_page] the subsections [#Synonymes] and
    [#Synonymes_2] both match and belong to one section; the result has one
    entry, for the second, and the words of the first are not extracted. *)
Lemma related_words_ids_merges_subsections :
  exists self,
    init (U := ascii_unicode) sample_languages synonyms_page None
         (u "Français") = Ok self
    /\ sections_id self
       = [(u "#Nom_commun", [u "#Synonymes"; u "#Synonymes_2"])]
    /\ _related_words_ids (U := ascii_unicode) (Q := plain_text)
                          self (u "Synonymes")
       = Ok [(u "Nom commun", u "#Synonymes_2")]
    /\ get_related_words (U := ascii_unicode) (Q := plain_text)
                         self (u "Synonymes")
       = Ok [(KStr (u "Nom commun"),
              VDict [(KInt 0, VDict [(KStr (u "description"), VStr []);
                                     (KStr (u "words"),
                                      VList [u "matou"])])])].
Proof.
  eexists; split; [vm_compute; reflexivity|].
  repeat split; vm_compute; reflexivity.
Qed.

(** * Further properties of the two modules *)

(** ** Literal regexes *)

Section Literals.
Context {U : Unicode}.

Lemma lit_cons (c : char) (p : str) :
  lit (c :: p) = Cat (One (CLit c)) (lit p).
Proof. reflexivity. Qed.

Lemma rests_lit (p : str) :
  forall s, rests (lit p) s
            = if startswith p s then [skipn (length p) s] else [].
Proof.
  induction p as [|c p IH]; intros s; [reflexivity|].
  rewrite lit_cons; destruct s as [|d s]; [reflexivity|].
  simpl; destruct (char_eqb c d); simpl; [|reflexivity].
  rewrite IH, app_nil_r; reflexivity.
Qed.

Lemma startswith_app (p s : str) :
  startswith p s = true <-> exists rest, s = p ++ rest.
Proof.
  revert s; induction p as [|c p IH]; intros s; simpl.
  - split; [intros _; exists s; reflexivity | reflexivity].
  - destruct s as [|d s]; [split; [discriminate | intros [r H]; discriminate]|].
    unfold char_eqb; rewrite andb_true_iff, N.eqb_eq, IH; split.
    + intros [-> [r ->]]; exists r; reflexivity.
    + intros [r H]; inversion H; split; [reflexivity | exists r; reflexivity].
Qed.

Lemma skipn_prefix (p rest : str) : skipn (length p) (p ++ rest) = rest.
Proof. induction p; simpl; auto. Qed.

(** A pattern made of a literal followed by a regex that always matches
    finds a match exactly where the literal starts. *)
Lemma match_at_lit_then (p : str) (r : re) (b : bool) (s : str) :
  (forall t, rests r t <> []) ->
  match match_at {| bol := false; body := Cat (lit p) r; eol := false |} b s
  with Some _ => true | None => false end = startswith p s.
Proof.
  intros Hr; unfold match_at; simpl; rewrite rests_lit.
  destruct (startswith p s); simpl; [|reflexivity].
  rewrite app_nil_r; specialize (Hr (skipn (length p) s)).
  destruct (rests r (skipn (length p) s)); [congruence | reflexivity].
Qed.

Lemma match_at_plain (p : str) (b : bool) (s : str) :
  match match_at (plain p) b s with Some _ => true | None => false end
  = startswith p s.
Proof.
  unfold match_at, plain; simpl; rewrite rests_lit.
  destruct (startswith p s); reflexivity.
Qed.

Lemma search_from_contains (pat : pattern) (p : str) :
  (forall b s, match match_at pat b s with Some _ => true | None => false end
               = startswith p s) ->
  forall b s, search_from pat b s = contains p s.
Proof.
  intros H b s; revert b; induction s as [|c s IH]; intros b; simpl;
    specialize (H b); [specialize (H []) | specialize (H (c :: s))];
    destruct (match_at pat b _); rewrite <- H; simpl; auto.
Qed.

(** [re.search] of a literal is the substring test. *)
Lemma search_plain (p s : str) : search (plain p) s = contains p s.
Proof. apply search_from_contains, match_at_plain. Qed.

Lemma many_nonempty (k : cls) (t : str) : many k t <> [].
Proof.
  destruct t as [|c t]; simpl; [discriminate|].
  destruct (cls_ok k c); [|discriminate].
  destruct (many k t); discriminate.
Qed.

(** X1: [filter_sections_id] with the patterns of [get_parts_of_speech]
    keeps, in order, the identifiers that contain none of the seven words;
    the last pattern, [Erreurs*], needs no final [s]. *)
Theorem filter_sections_id_useless (sections : list str) :
  filter_sections_id sections useless_sections
  = filter (fun s => negb (existsb (fun w => contains w s) useless_words))
           sections.
Proof.
  unfold filter_sections_id; apply filter_ext; intros s; f_equal.
  unfold useless_sections, useless_words; simpl existsb.
  rewrite !search_plain.
  replace (search {| bol := false;
                     body := Cat (lit (u "Erreur")) (Many (CLit 115%N));
                     eol := false |} s)
    with (contains (u "Erreur") s); [reflexivity|].
  symmetry; apply search_from_contains; intros b t.
  apply match_at_lit_then; intros t'; apply many_nonempty.
Qed.

End Literals.

(** ** Etymology *)

Section Etymology.
Context {U : Unicode}.

Lemma filter_none (A : Type) (f : A -> bool) (l : list A) :
  (forall x, In x l -> f x = false) -> filter f l = [].
Proof.
  induction l as [|x l IH]; intros H; simpl; [reflexivity|].
  rewrite (H x (or_introl eq_refl)); apply IH; intros y Hy; apply H; right;
    exact Hy.
Qed.

Lemma filter_first (A : Type) (f : A -> bool) (pre post : list A) (x : A) :
  (forall y, In y pre -> f y = false) -> f x = true ->
  filter f (pre ++ x :: post) = x :: filter f post.
Proof.
  intros Hpre Hx; rewrite filter_app, (filter_none f pre Hpre); simpl.
  rewrite Hx; reflexivity.
Qed.

(** X2: without a key that contains ['Étymologie'] the etymology is the
    empty string; otherwise the first such key is looked up, and the result is
    the cleaned text of the node that follows the parent of its anchor. *)
Theorem get_etymology_spec (self : parser) :
  ((forall key, In key (Dict.keys (sections_id self)) ->
                contains (u "Étymologie") key = false) ->
   get_etymology self = Ok [])
  /\ (forall pre id_ post anchor found parent before next after,
        Dict.keys (sections_id self) = pre ++ id_ :: post ->
        (forall key, In key pre -> contains (u "Étymologie") key = false) ->
        contains (u "Étymologie") id_ = true ->
        query_find (_query self) id_ = Ok (anchor :: found) ->
        getparent (fst anchor) = Some parent ->
        chain_from (_query self) parent = before :: next :: after ->
        get_etymology self = Ok (etymology_cleaner (text_content next))).
Proof.
  unfold get_etymology; split.
  - intros H; rewrite filter_none; [reflexivity|].
    intros key Hk; rewrite search_plain; apply H, Hk.
  - intros pre id_ post anchor found parent before next after Hk Hpre Hid
           Hq Hp Hc.
    rewrite Hk, (filter_first _ pre post id_).
    + rewrite Hq; unfold bind, first; cbv beta iota; rewrite Hp, Hc.
      reflexivity.
    + intros key Hin; rewrite search_plain; apply Hpre, Hin.
    + rewrite search_plain; exact Hid.
Qed.

End Etymology.

Lemma get_etymology_spec_witness :
  get_etymology (U := ascii_unicode)
    (with_sections_id sample_parser [(u "#Nom_commun", [])]) = Ok []
  /\ get_etymology (U := ascii_unicode) sample_parser
     = Ok (etymology_cleaner (U := ascii_unicode)
             (text_content (nth 2 sample_body (Comment [] [])))).
Proof.
  split.
  - apply (proj1 (@get_etymology_spec ascii_unicode
                    (with_sections_id sample_parser [(u "#Nom_commun", [])]))).
    intros key [<-|[]]; vm_compute; reflexivity.
  - apply (proj2 (@get_etymology_spec ascii_unicode sample_parser)
                 [] (u "#Étymologie")
                 [u "#Nom_commun"; u "#Références"]
                 ([0; 3; 0], nth 0 (getchildren (nth 1 sample_body
                                                     (Comment [] [])))
                                 (Comment [] []))
                 [] [0; 3] (nth 1 sample_body (Comment [] []))
                 (nth 2 sample_body (Comment [] [])) (skipn 3 sample_body));
      try (vm_compute; reflexivity).
    intros key [].
Defined.

(** ** The regex of a related-word category *)

Section RelatedRegex.
Context {U : Unicode} {Q : PyQuery}.

Lemma many_nil (k : cls) (s : str) :
  In [] (many k s) <-> forallb (cls_ok k) s = true.
Proof.
  induction s as [|c s IH]; simpl; [tauto|].
  destruct (cls_ok k c); simpl.
  - rewrite in_app_iff, IH; simpl; intuition discriminate.
  - intuition discriminate.
Qed.

Lemma fullmatch_in (r : re) (s : str) :
  fullmatch r s = true <-> In [] (rests r s).
Proof.
  unfold fullmatch; rewrite existsb_exists; split.
  - intros [[|c t] [H E]]; [exact H | discriminate].
  - intros H; exists []; split; [exact H | reflexivity].
Qed.

Lemma rests_lit_cat (p : str) (r : re) (s : str) (t : str) :
  In t (rests (Cat (lit p) r) s) <->
  exists rest, s = p ++ rest /\ In t (rests r rest).
Proof.
  simpl; rewrite rests_lit.
  destruct (startswith p s) eqn:E.
  - apply startswith_app in E; destruct E as [rest ->].
    rewrite skipn_prefix; simpl; rewrite app_nil_r; split.
    + intros H; exists rest; split; [reflexivity | exact H].
    + intros [rest' [H H']]; apply app_inv_head in H; subst; exact H'.
  - simpl; split; [intros [] | intros [rest [-> _]]].
    assert (T : startswith p (p ++ rest) = true)
      by (apply startswith_app; exists rest; reflexivity).
    congruence.
Qed.

Lemma rests_one_cat (k : cls) (r : re) (s t : str) :
  In t (rests (Cat (One k) r) s) <->
  exists c s', s = c :: s' /\ cls_ok k c = true /\ In t (rests r s').
Proof.
  change (rests (Cat (One k) r) s) with (flat_map (rests r) (rests (One k) s)).
  destruct s as [|c s'].
  - simpl; split; [intros [] | intros [c [s' [H _]]]; discriminate].
  - change (rests (One k) (c :: s')) with (if cls_ok k c then [s'] else []).
    destruct (cls_ok k c) eqn:E.
    + simpl flat_map; rewrite app_nil_r; split.
      * intros H; exists c, s'; auto.
      * intros [c' [s'' [H [_ H']]]]; inversion H; subst; exact H'.
    + simpl; split; [intros []|].
      intros [c' [s'' [H [E' _]]]]; inversion H; subst; congruence.
Qed.

(** The optional suffix [(?:_\d+)?] up to the end of the string. *)
Lemma suffix_rests (rest : str) :
  In [] (rests (Opt (Cat (One (CLit 95%N)) (Cat (One CDigit) (Many CDigit))))
               rest) <->
  rest = []
  \/ exists d ds, rest = 95%N :: d :: ds
                  /\ forallb isdecimal (d :: ds) = true.
Proof.
  change (rests (Opt ?r) rest) with (rests r rest ++ [rest]).
  rewrite in_app_iff, rests_one_cat; split.
  - intros [[c [s' [-> [Ec H]]]]|[H|[]]]; [right | left; auto].
    apply rests_one_cat in H; destruct H as [d [ds [-> [Ed H]]]].
    change (cls_ok (CLit 95%N) c) with (N.eqb 95%N c) in Ec.
    apply N.eqb_eq in Ec; subst c; exists d, ds; split; [reflexivity|].
    change (cls_ok CDigit d) with (isdecimal d) in Ed.
    simpl; rewrite Ed; exact (proj1 (many_nil CDigit ds) H).
  - intros [->|[d [ds [-> H]]]]; [right; left; reflexivity | left].
    simpl in H; apply andb_true_iff in H; destruct H as [Hd Hds].
    exists 95%N, (d :: ds); split; [reflexivity|]; split; [reflexivity|].
    apply rests_one_cat; exists d, ds; split; [reflexivity|].
    split; [exact Hd | exact (proj2 (many_nil CDigit ds) Hds)].
Qed.

(** The regex built from a slug without regex syntax accepts the slug behind
    [#], and the same followed by [_] and one or more decimal digits, and
    nothing else. *)
Lemma related_regex_language (slug value : str) (regex : re) :
  related_regex slug = Ok regex ->
  (fullmatch regex value = true <->
   value = u "#" ++ slug
   \/ exists digits,
        digits <> [] /\ forallb isdecimal digits = true
        /\ value = u "#" ++ slug ++ [95%N] ++ digits).
Proof.
  unfold related_regex; destruct (existsb regex_special slug);
    [discriminate|].
  intros E; inversion E; subst regex; clear E.
  change (Cat (One (CLit 35%N)) (lit slug)) with (lit (u "#" ++ slug)).
  rewrite fullmatch_in, rests_lit_cat; split.
  - intros [rest [-> H]]; apply suffix_rests in H.
    destruct H as [->|[d [ds [-> H]]]].
    + left; rewrite app_nil_r; reflexivity.
    + right; exists (d :: ds); split; [discriminate|]; split; [exact H|].
      rewrite <- app_assoc; reflexivity.
  - intros [->|[digits [Hne [Hd ->]]]].
    + exists []; split; [rewrite app_nil_r; reflexivity|].
      apply suffix_rests; left; reflexivity.
    + exists ([95%N] ++ digits); split; [rewrite app_assoc; reflexivity|].
      destruct digits as [|d ds]; [congruence|].
      apply suffix_rests; right; exists d, ds; split; [reflexivity | exact Hd].
Qed.

Lemma replace_char_no_space (s : str) :
  ~ In 32%N (replace_char 32%N (u "_") s).
Proof.
  unfold replace_char; rewrite in_flat_map; intros [c [_ H]].
  destruct (char_eqb c 32%N) eqn:E; simpl in H.
  - destruct H as [H|[]]; discriminate.
  - destruct H as [H|[]]; subst c.
    unfold char_eqb in E; rewrite N.eqb_refl in E; discriminate.
Qed.

(** X3: [_related_words_ids] first replaces the spaces of the category label
    by underscores.  For a label that then has no regex syntax, the
    subsection identifiers it accepts are that slug behind [#], and the same
    followed by [_] and one or more decimal digits, and nothing else; the
    slug has no space left, and the regex is the one the scan of the index
    runs with. *)
Theorem related_regex_matches (related_word value : str) (regex : re) :
  let slug := replace_char 32%N (u "_") related_word in
  related_regex slug = Ok regex ->
  (fullmatch regex value = true <->
   value = u "#" ++ slug
   \/ exists digits,
        digits <> [] /\ forallb isdecimal digits = true
        /\ value = u "#" ++ slug ++ [95%N] ++ digits)
  /\ ~ In 32%N slug
  /\ (forall self,
        _related_words_ids self related_word
        = ids_loop regex (_query self) (sections_id self) []).
Proof.
  intros slug Hr; split; [exact (related_regex_language slug value Hr)|].
  split; [apply replace_char_no_space|].
  intros self; unfold _related_words_ids; fold slug; rewrite Hr; reflexivity.
Qed.

End RelatedRegex.

Lemma related_regex_matches_witness :
  exists regex,
    related_regex (replace_char 32%N (u "_") (u "Voir aussi")) = Ok regex
    /\ fullmatch (U := ascii_unicode) regex (u "#Voir_aussi_12") = true
    /\ fullmatch (U := ascii_unicode) regex (u "#Voir aussi") = false.
Proof.
  eexists; split; [reflexivity|]; split.
  - apply (proj2 (proj1 (@related_regex_matches ascii_unicode plain_text
                           (u "Voir aussi") (u "#Voir_aussi_12") _ eq_refl))).
    right; exists (u "12"); repeat split; vm_compute; congruence.
  - vm_compute; reflexivity.
Defined.

(** ** Dictionaries: keys *)

Section DictKeys.
Variables (K V : Type) (eqb : K -> K -> bool).
Hypothesis eqb_eq : forall a b, eqb a b = true <-> a = b.

Lemma set_fresh (d : Dict.dict K V) (k : K) (v : V) :
  ~ In k (Dict.keys d) -> Dict.set eqb d k v = d ++ [(k, v)].
Proof.
  induction d as [|[k' v'] d IH]; simpl; intros H; [reflexivity|].
  destruct (eqb k' k) eqn:E; [apply eqb_eq in E; tauto|].
  rewrite IH by tauto; reflexivity.
Qed.

Lemma set_present_keys (d : Dict.dict K V) (k : K) (v : V) :
  In k (Dict.keys d) -> Dict.keys (Dict.set eqb d k v) = Dict.keys d.
Proof.
  induction d as [|[k' v'] d IH]; simpl; intros H; [contradiction|].
  destruct (eqb k' k) eqn:E; simpl; [reflexivity|].
  f_equal; apply IH; destruct H as [H|H]; [|exact H].
  apply eqb_eq in H; congruence.
Qed.

Lemma get_present (d : Dict.dict K V) (k : K) :
  Dict.get eqb d k <> None <-> In k (Dict.keys d).
Proof.
  induction d as [|[k' v'] d IH]; simpl; [tauto|].
  destruct (eqb k' k) eqn:E.
  - apply eqb_eq in E; split; [auto | discriminate].
  - rewrite IH; split; [tauto | intros [H|H]; [|exact H]].
    apply eqb_eq in H; congruence.
Qed.

Lemma set_same_value (d : Dict.dict K V) (k : K) (v : V) :
  Dict.get eqb d k = Some v -> Dict.set eqb d k v = d.
Proof.
  induction d as [|[k' v'] d IH]; simpl; [discriminate|].
  destruct (eqb k' k) eqn:E; [intros H; inversion H; reflexivity|].
  intros H; rewrite IH by exact H; reflexivity.
Qed.

End DictKeys.

(** ** Walks over a sibling chain *)

Section Walks.
Context {U : Unicode}.

(** X4: on a chain that reaches a heading of level 3 or 4, [get_notes]
    returns the texts of the nodes in front of the first heading, joined by
    line feeds; nothing behind the heading is read. *)
Theorem get_notes_until_heading (pre post : list node) (h : node) :
  no_heading pre = true -> is_heading h = true ->
  get_notes (pre ++ h :: post) = Ok (join [10%N] (map text_content pre)).
Proof.
  intros Hpre Hh; unfold get_notes.
  rewrite (get_notes_loop_heading pre post h [] Hpre Hh); reflexivity.
Qed.

Lemma link_words_ok (links : list node) :
  (forall l, In l links -> attrib_get l (u "href") <> None) ->
  link_words links
  = Ok (map text_content (filter (fun l => negb (is_appendix l)) links)).
Proof.
  induction links as [|l links IH]; intros H; simpl; [reflexivity|].
  pose proof (H l (or_introl eq_refl)) as Hl.
  unfold is_appendix at 1.
  destruct (attrib_get l (u "href")) as [href|]; [|congruence].
  rewrite IH by (intros l' Hl'; apply H; right; exact Hl'); simpl.
  destruct (contains (u "Annexe:") href); reflexivity.
Qed.

Lemma link_words_raise (links : list node) (l : node) :
  In l links -> attrib_get l (u "href") = None ->
  link_words links = Raise TypeError.
Proof.
  induction links as [|l' links IH]; simpl; [contradiction|].
  intros [->|Hin] Hl; [rewrite Hl; reflexivity|].
  destruct (attrib_get l' (u "href")); [|reflexivity].
  rewrite (IH Hin Hl); reflexivity.
Qed.

(** X6: the words of a node are the texts of its links in order, without
    the links to appendix pages, when every link has an [href]; a single link
    without [href] makes the extraction raise [TypeError]. *)
Theorem link_words_spec (links : list node) :
  ((forall l, In l links -> attrib_get l (u "href") <> None) ->
   link_words links
   = Ok (map text_content (filter (fun l => negb (is_appendix l)) links)))
  /\ ((exists l, In l links /\ attrib_get l (u "href") = None) ->
      link_words links = Raise TypeError).
Proof.
  split; [apply link_words_ok|].
  intros [l [Hin Hl]]; exact (link_words_raise links l Hin Hl).
Qed.

Lemma vset_fresh (d : vdict) (k : key) (v : value) :
  ~ In k (Dict.keys d) -> vset d k v = d ++ [(k, v)].
Proof. apply (@set_fresh key value key_eqb key_eqb_eq). Qed.

Lemma extract_related_loop_closed (chain : list node) :
  no_heading chain = true ->
  forall count related result,
    (forall j, In (KInt j) (Dict.keys related) -> j < count) ->
    extract_related_loop chain count related = Ok result ->
    result = related ++ flat_map related_at (enumerate_from count chain)
    /\ (forall n, In n chain -> is_comment n = false ->
                  exists entry, related_entry n = Ok entry).
Proof.
  induction chain as [|n chain IH]; intros Hn count related result Hk; simpl.
  - intros E; inversion E; rewrite app_nil_r; split; [reflexivity|].
    intros n [].
  - simpl in Hn; apply andb_true_iff in Hn; destruct Hn as [Hn Hc].
    apply negb_true_iff in Hn; rewrite Hn.
    unfold related_at at 1; simpl fst; simpl snd.
    destruct (is_comment n) eqn:Ec; simpl bind.
    + intros E; destruct (IH Hc (S count) related result) as [R A]; auto.
      { intros j Hj; apply Hk in Hj; lia. }
      split; [exact R|].
      intros n' [<-|Hin] Hc'; [congruence | apply A; assumption].
    + destruct (related_entry n) as [entry|e] eqn:Ee; simpl bind;
        [|discriminate].
      assert (F : ~ In (KInt count) (Dict.keys related))
        by (intros H; apply Hk in H; lia).
      rewrite (@vset_fresh related (KInt count) entry F).
      intros E.
      destruct (IH Hc (S count) (related ++ [(KInt count, entry)]) result)
        as [R A]; [|exact E|].
      { intros j; unfold Dict.keys; rewrite map_app, in_app_iff; simpl.
        intros [H|[H|[]]]; [apply Hk in H; lia | inversion H; lia]. }
      split; [rewrite R, <- app_assoc; reflexivity|].
      intros n' [<-|Hin] Hc'; [exists entry; exact Ee | apply A; assumption].
Qed.

(** X5: [extract_related_words] reads the nodes in front of the first
    heading of level 3 or 4 (or all of them when there is none); when it
    returns, the result holds the entry of every node that is not a comment
    under the position of the node in the chain, so a comment leaves a gap
    in the numbering. *)
Theorem extract_related_words_entries (pre post : list node) (h : node)
        (result : vdict) :
  no_heading pre = true -> is_heading h = true ->
  extract_related_words pre = Ok result ->
  extract_related_words (pre ++ h :: post) = Ok result
  /\ result = flat_map related_at (enumerate_from 0 pre)
  /\ (forall n, In n pre -> is_comment n = false ->
                exists entry, related_entry n = Ok entry).
Proof.
  intros Hpre Hh E; unfold extract_related_words in *.
  rewrite (extract_related_loop_heading pre post h 0 [] Hh).
  split; [exact E|].
  apply (@extract_related_loop_closed pre Hpre 0 [] result); [|exact E].
  intros j [].
Qed.

End Walks.

Lemma get_notes_until_heading_witness :
  get_notes ([elt "p" [] "Ce mot est familier." []; elt "p" [] "Rare." []]
             ++ anchor "h3" "Références" "" "Références"
             :: [elt "p" [] "Autre section." []])
  = Ok (u "Ce mot est familier." ++ [10%N] ++ u "Rare.").
Proof.
  apply (@get_notes_until_heading
           [elt "p" [] "Ce mot est familier." []; elt "p" [] "Rare." []]
           [elt "p" [] "Autre section." []]
           (anchor "h3" "Références" "" "Références"));
    vm_compute; reflexivity.
Defined.

Lemma link_words_spec_witness :
  link_words sample_links = Ok [u "matou"; u "minet"]
  /\ link_words (sample_links ++ [bare_link]) = Raise TypeError.
Proof.
  split.
  - apply (proj1 (link_words_spec sample_links)).
    intros l [<-|[<-|[<-|[]]]]; vm_compute; discriminate.
  - apply (proj2 (link_words_spec (sample_links ++ [bare_link]))).
    exists bare_link; split; [|reflexivity].
    apply in_or_app; right; left; reflexivity.
Defined.

Lemma extract_related_words_entries_witness :
  extract_related_words
    (sample_related_chain
     ++ anchor "h4" "Antonymes" "" "Antonymes" :: [elt "p" [] "suite" []])
  = Ok [(KInt 0, VDict [(KStr (u "description"), VStr []);
                        (KStr (u "words"), VList [u "matou"])]);
        (KInt 2, VDict [(KStr (u "description"), VStr []);
                        (KStr (u "words"), VList [u "minet"])])].
Proof.
  apply (@extract_related_words_entries sample_related_chain
           [elt "p" [] "suite" []]
           (anchor "h4" "Antonymes" "" "Antonymes"));
    vm_compute; reflexivity.
Defined.

(** ** Assembling the record: what [insert_related_words] keeps *)

Lemma vset_present_keys (d : vdict) (k : key) (v : value) :
  vget d k <> None -> Dict.keys (vset d k v) = Dict.keys d.
Proof.
  intros H; apply (@set_present_keys key value key_eqb key_eqb_eq).
  apply (@get_present key value key_eqb key_eqb_eq); exact H.
Qed.

Lemma vset_keys_cases (d : vdict) (k : key) (v : value) :
  (In k (Dict.keys d) /\ Dict.keys (vset d k v) = Dict.keys d)
  \/ (~ In k (Dict.keys d) /\ Dict.keys (vset d k v) = Dict.keys d ++ [k]).
Proof.
  destruct (vget d k) eqn:E.
  - left; assert (H : vget d k <> None) by congruence; split.
    + apply (@get_present key value key_eqb key_eqb_eq); exact H.
    + apply vset_present_keys; exact H.
  - right; apply (@get_absent key value key_eqb key_eqb_eq) in E.
    split; [exact E|].
    rewrite (@vset_fresh d k v E); unfold Dict.keys; rewrite map_app.
    reflexivity.
Qed.

Lemma insert_group_keys (part : str) (pos pos' : vdict) (group : key * value) :
  insert_group part pos group = Ok pos' ->
  (Dict.keys pos' = Dict.keys pos)
  \/ (~ In (KStr part) (Dict.keys pos)
      /\ Dict.keys pos' = Dict.keys pos ++ [KStr part]).
Proof.
  unfold insert_group; destruct (vget pos (fst group)) as [[| |d|]|] eqn:E;
    try discriminate; intros H; inversion H; subst pos'.
  - left; apply vset_present_keys; congruence.
  - destruct (vset_keys_cases pos (KStr part) (snd group)) as [[_ K]|[N K]];
      [left | right; split]; assumption.
Qed.

Lemma insert_groups_keys (part : str) (related : vdict) :
  forall pos result,
    insert_groups part pos related = Ok result ->
    (Dict.keys result = Dict.keys pos)
    \/ (~ In (KStr part) (Dict.keys pos)
        /\ Dict.keys result = Dict.keys pos ++ [KStr part]).
Proof.
  induction related as [|g related IH]; intros pos result; simpl.
  - intros H; inversion H; left; reflexivity.
  - destruct (insert_group part pos g) as [pos'|e] eqn:E; simpl;
      [|discriminate].
    intros H; apply IH in H; apply insert_group_keys in E.
    destruct E as [E|[N E]]; rewrite E in H.
    + exact H.
    + right; split; [exact N|].
      destruct H as [H|[N' H]]; [exact H|].
      exfalso; apply N', in_or_app; right; left; reflexivity.
Qed.

(** X7: when [insert_related_words] returns, the keys of the record are those
    it had, in the same order, with at most the category label added at the
    end: no part of speech is removed, renamed or moved. *)
Theorem insert_related_words_keys (parts_of_speech : vdict) (part : str)
        (related result : vdict) :
  insert_related_words parts_of_speech part related = Ok result ->
  Dict.keys result = Dict.keys parts_of_speech
  \/ (~ In (KStr part) (Dict.keys parts_of_speech)
      /\ Dict.keys result = Dict.keys parts_of_speech ++ [KStr part]).
Proof.
  unfold insert_related_words; destruct related as [|g related].
  - intros H; inversion H; left; reflexivity.
  - apply insert_groups_keys.
Qed.

Lemma insert_related_words_keys_witness :
  Dict.keys [(KStr (u "Nom commun"), VDict []);
             (KStr (u "Synonymes"), VList [u "minet"])]
  = Dict.keys [(KStr (u "Nom commun"), VDict [])]
  \/ (~ In (KStr (u "Synonymes")) (Dict.keys [(KStr (u "Nom commun"), VDict [])])
      /\ Dict.keys [(KStr (u "Nom commun"), VDict []);
                    (KStr (u "Synonymes"), VList [u "minet"])]
         = Dict.keys [(KStr (u "Nom commun"), VDict [])]
           ++ [KStr (u "Synonymes")]).
Proof.
  apply (@insert_related_words_keys
           [(KStr (u "Nom commun"), VDict [])] (u "Synonymes")
           [(KStr (u "Locution"), VList [u "minet"])]).
  vm_compute; reflexivity.
Defined.

Lemma insert_groups_nested (part : str) (related : vdict) :
  forall pos,
    NoDup (Dict.keys related) ->
    (forall k v, In (k, v) related -> exists d, vget pos k = Some (VDict d)) ->
    exists result,
      insert_groups part pos related = Ok result
      /\ (forall k v d, In (k, v) related -> vget pos k = Some (VDict d) ->
            vget result k = Some (VDict (vset d (KStr part) v)))
      /\ (forall k, ~ In k (Dict.keys related) -> vget result k = vget pos k).
Proof.
  induction related as [|[k v] related IH]; intros pos N H; simpl.
  - exists pos; split; [reflexivity|]; split; [intros k v d []|reflexivity].
  - inversion N as [|? ? Nk N']; subst.
    destruct (H k v (or_introl eq_refl)) as [d Hd].
    unfold insert_group at 1; simpl fst; simpl snd; rewrite Hd; simpl bind.
    set (pos' := vset pos k (VDict (vset d (KStr part) v))).
    assert (O : forall k', k' <> k -> vget pos' k' = vget pos k').
    { intros k' Hk'; unfold pos'; apply vget_set_other; congruence. }
    assert (Hin : forall k' v', In (k', v') related -> k' <> k).
    { intros k' v' Hi E; subst k'; apply Nk.
      apply (in_map fst) in Hi; exact Hi. }
    destruct (IH pos' N') as [result [E [A B]]].
    { intros k' v' Hi; rewrite (O k' (Hin k' v' Hi)).
      apply (H k' v'); right; exact Hi. }
    exists result; split; [exact E|]; split.
    + intros k' v' d' [Hi|Hi] Hd'.
      * inversion Hi; subst k' v'; rewrite (B k Nk).
        unfold pos'; rewrite vget_set_same; congruence.
      * apply A; [exact Hi|]; rewrite (O k' (Hin k' v' Hi)); exact Hd'.
    + intros k' Hk'; simpl in Hk'; rewrite B by tauto.
      apply O; intros E'; apply Hk'; left; symmetry; exact E'.
Qed.

(** X8: when every group of [related] is named after a key of the record that
    holds a dictionary, each group is stored inside that dictionary under the
    category label, and every other entry of the record is left as it was. *)
Theorem insert_related_words_nested (parts_of_speech : vdict) (part : str)
        (related : vdict) :
  NoDup (Dict.keys related) ->
  (forall k v, In (k, v) related ->
               exists d, vget parts_of_speech k = Some (VDict d)) ->
  exists result,
    insert_related_words parts_of_speech part related = Ok result
    /\ (forall k v d, In (k, v) related ->
          vget parts_of_speech k = Some (VDict d) ->
          vget result k = Some (VDict (vset d (KStr part) v)))
    /\ (forall k, ~ In k (Dict.keys related) ->
                  vget result k = vget parts_of_speech k).
Proof.
  intros N H; unfold insert_related_words; destruct related as [|g related].
  - exists parts_of_speech; split; [reflexivity|].
    split; [intros k v d [] | reflexivity].
  - apply insert_groups_nested; assumption.
Qed.

Lemma insert_related_words_nested_witness :
  exists result,
    insert_related_words
      [(KStr (u "Nom commun"), VDict [(KInt 0, VStr (u "Animal."))]);
       (KStr (u "Verbe"), VDict [])]
      (u "Synonymes")
      [(KStr (u "Nom commun"), VList [u "matou"])] = Ok result
    /\ vget result (KStr (u "Nom commun"))
       = Some (VDict [(KInt 0, VStr (u "Animal."));
                      (KStr (u "Synonymes"), VList [u "matou"])])
    /\ vget result (KStr (u "Verbe")) = Some (VDict []).
Proof.
  destruct (@insert_related_words_nested
              [(KStr (u "Nom commun"), VDict [(KInt 0, VStr (u "Animal."))]);
               (KStr (u "Verbe"), VDict [])]
              (u "Synonymes")
              [(KStr (u "Nom commun"), VList [u "matou"])])
    as [result [E [A B]]].
  - repeat constructor; intros [].
  - intros k v [H|[]]; inversion H; subst; eexists; vm_compute; reflexivity.
  - exists result; split; [exact E|]; split.
    + apply (A _ _ [(KInt 0, VStr (u "Animal."))]);
        [left; reflexivity | vm_compute; reflexivity].
    + rewrite B; [vm_compute; reflexivity|].
      vm_compute; intros [H|[]]; discriminate.
Defined.

(** ** Definitions: numbering, text and the introductory line *)

Section DefinitionFacts.
Context {U : Unicode}.

Lemma get_definitions_walk (self : parser) (part_of_speech : str)
      (anchor : path * node) (found : list (path * node)) (parent : path) :
  query_find (_query self) (section_slug part_of_speech)
  = Ok (anchor :: found) ->
  getparent (fst anchor) = Some parent ->
  get_definitions self part_of_speech
  = (Ok match fst (walk_to_ol (chain_from (_query self) parent)
                              (pronunciation self, gender self)) with
        | ol :: _ => definitions_loop 0 (getchildren ol) []
        | [] => []
        end,
     with_ligne self
       (snd (walk_to_ol (chain_from (_query self) parent)
                        (pronunciation self, gender self)))).
Proof.
  intros Hq Hp; unfold get_definitions; rewrite Hq; unfold bind, first.
  cbv beta iota; rewrite Hp.
  destruct (walk_to_ol _ _) as [stop pg]; reflexivity.
Qed.

Lemma definitions_loop_closed (blocs : list node) :
  forall k d,
    (forall j, In (KInt j) (Dict.keys d) -> j < k) ->
    definitions_loop k blocs d
    = d ++ map (fun ib => (KInt (fst ib), definition_entry (snd ib)))
               (enumerate_from k blocs).
Proof.
  induction blocs as [|b blocs IH]; intros k d Hk; simpl;
    [rewrite app_nil_r; reflexivity|].
  assert (F : ~ In (KInt k) (Dict.keys d))
    by (intros H; apply Hk in H; lia).
  rewrite (@vset_fresh d (KInt k) (definition_entry b) F), IH.
  - rewrite <- app_assoc; reflexivity.
  - intros j; unfold Dict.keys; rewrite map_app, in_app_iff; simpl.
    intros [H|[H|[]]]; [apply Hk in H; lia | inversion H; lia].
Qed.

Lemma walk_to_ol_hd (chain : list node) (ol : node) :
  forall pg,
    List.find (tag_is (u "ol")) chain = Some ol ->
    exists rest, fst (walk_to_ol chain pg) = ol :: rest.
Proof.
  induction chain as [|n chain IH]; intros pg; simpl; [discriminate|].
  destruct (tag_is (u "ol") n) eqn:E.
  - intros H; inversion H; subst; exists chain; reflexivity.
  - apply IH.
Qed.

(** X9: when the chain from the parent of the anchor has an [ol], the result
    of [get_definitions] lists one entry for each child of the first [ol], in
    document order, under the keys 0, 1, 2, ... *)
Theorem get_definitions_enumerates (self : parser) (part_of_speech : str)
        (anchor : path * node) (found : list (path * node)) (parent : path)
        (ol : node) :
  query_find (_query self) (section_slug part_of_speech)
  = Ok (anchor :: found) ->
  getparent (fst anchor) = Some parent ->
  List.find (tag_is (u "ol")) (chain_from (_query self) parent) = Some ol ->
  fst (get_definitions self part_of_speech)
  = Ok (map (fun ib => (KInt (fst ib), definition_entry (snd ib)))
            (enumerate_from 0 (getchildren ol))).
Proof.
  intros Hq Hp Hol; rewrite (get_definitions_walk _ _ Hq Hp); simpl fst.
  destruct (walk_to_ol_hd _ (pronunciation self, gender self) Hol)
    as [rest ->].
  rewrite definitions_loop_closed; [reflexivity | intros j []].
Qed.

Lemma first_line_no_feed (s : str) : ~ In 10%N (first_line s).
Proof.
  induction s as [|c s IH]; simpl; [tauto|].
  destruct (char_eqb c 10%N) eqn:E; simpl; [tauto|].
  intros [H|H]; [|tauto].
  subst c; unfold char_eqb in E; rewrite N.eqb_refl in E; discriminate.
Qed.

Lemma first_line_prefix (s : str) : startswith (first_line s) s = true.
Proof.
  induction s as [|c s IH]; simpl; [reflexivity|].
  destruct (char_eqb c 10%N); simpl; [reflexivity|].
  unfold char_eqb; rewrite N.eqb_refl; exact IH.
Qed.

(** X10: the entry of a definition item always has the key ['definition'];
    its text is a prefix of the text content of the item and contains no line
    feed. *)
Theorem definition_entry_text (definition_bloc : node) :
  exists entry definition,
    definition_entry definition_bloc = VDict entry
    /\ vget entry (KStr (u "definition")) = Some (VStr definition)
    /\ startswith definition (text_content definition_bloc) = true
    /\ ~ In 10%N definition.
Proof.
  unfold definition_entry.
  eexists; exists (first_line (text_content definition_bloc)).
  split; [reflexivity|]; split;
    [|split; [apply first_line_prefix | apply first_line_no_feed]].
  assert (E1 : forall e,
             vget (match get_examples definition_bloc with
                   | [] => [(KStr (u "definition"), VStr e)]
                   | _ :: _ =>
                     vset [(KStr (u "definition"), VStr e)]
                          (KStr (u "examples"))
                          (VDict (get_examples definition_bloc))
                   end) (KStr (u "definition")) = Some (VStr e)).
  { intros e; destruct (get_examples definition_bloc); reflexivity. }
  destruct (find (u "ol") definition_bloc) as [ol|]; [|apply E1].
  destruct (has_child ol); [|apply E1].
  rewrite vget_set_other; [apply E1|].
  intros H; inversion H.
Qed.

Lemma find_app_last (A : Type) (f : A -> bool) (l : list A) (x : A) :
  List.find f (l ++ [x])
  = match List.find f l with
    | Some y => Some y
    | None => if f x then Some x else None
    end.
Proof.
  induction l as [|y l IH]; simpl; [reflexivity|].
  destruct (f y); [reflexivity | exact IH].
Qed.

Lemma walk_to_ol_ligne (chain : list node) :
  forall pg,
    snd (walk_to_ol chain pg)
    = match List.find is_ligne (rev (before_ol chain)) with
      | Some line => ligne_de_forme line
      | None => pg
      end.
Proof.
  induction chain as [|n chain IH]; intros pg; simpl; [reflexivity|].
  destruct (tag_is (u "ol") n); [reflexivity|].
  rewrite IH; simpl rev; rewrite find_app_last.
  destruct (List.find is_ligne (rev (before_ol chain))); [reflexivity|].
  unfold is_ligne; destruct (tag_is (u "p") n || tag_is (u "span") n);
    reflexivity.
Qed.

(** X11: after [get_definitions] the pronunciation and the gender of the
    object are those read from the last [p] or [span] node in front of the
    first [ol]; when there is no such node they are what they were before the
    call.  The index, the language and the document are never changed. *)
Theorem get_definitions_ligne (self : parser) (part_of_speech : str)
        (anchor : path * node) (found : list (path * node)) (parent : path) :
  query_find (_query self) (section_slug part_of_speech)
  = Ok (anchor :: found) ->
  getparent (fst anchor) = Some parent ->
  let self' := snd (get_definitions self part_of_speech) in
  (pronunciation self', gender self')
  = match List.find is_ligne
            (rev (before_ol (chain_from (_query self) parent))) with
    | Some line => ligne_de_forme line
    | None => (pronunciation self, gender self)
    end
  /\ sections_id self' = sections_id self
  /\ _language self' = _language self
  /\ _query self' = _query self.
Proof.
  intros Hq Hp; rewrite (get_definitions_walk _ _ Hq Hp); simpl.
  rewrite <- walk_to_ol_ligne.
  destruct (snd (walk_to_ol _ _)); repeat split; reflexivity.
Qed.

Lemma replace_char_removes (a : char) (s : str) :
  ~ In a (replace_char a [] s).
Proof.
  unfold replace_char; rewrite in_flat_map; intros [c [_ H]].
  destruct (char_eqb c a) eqn:E; simpl in H; [contradiction|].
  destruct H as [H|[]]; subst c.
  unfold char_eqb in E; rewrite N.eqb_refl in E; discriminate.
Qed.

(** X12: no pronunciation returned by [ligne_de_forme] contains a
    backslash, and there is one pronunciation for each node, from the first
    link of the line on, whose first [span] child has the class ['API']. *)
Theorem ligne_de_forme_pronunciation (line : node) :
  Forall (fun p => ~ In 92%N p) (fst (ligne_de_forme line))
  /\ length (fst (ligne_de_forme line))
     = length (filter has_api_span
                      (chain_at_tag (u "a") (getchildren line))).
Proof.
  unfold ligne_de_forme; simpl fst; split.
  - apply Forall_forall; intros p; rewrite in_map_iff.
    intros [s [<- _]]; apply replace_char_removes.
  - rewrite !length_map; reflexivity.
Qed.

End DefinitionFacts.

Lemma get_definitions_enumerates_witness :
  fst (get_definitions (U := ascii_unicode) sample_parser (u "Nom commun"))
  = Ok (map (fun ib => (KInt (fst ib),
                        definition_entry (U := ascii_unicode) (snd ib)))
            (enumerate_from 0 (getchildren sample_ol))).
Proof.
  apply (@get_definitions_enumerates ascii_unicode sample_parser
           (u "Nom commun")
           ([0; 5; 0],
            nth 0 (getchildren (anchor "h3" "Nom_commun" "titredef"
                                       "Nom commun")) (Comment [] []))
           [] [0; 5] sample_ol);
    vm_compute; reflexivity.
Defined.

Lemma get_definitions_ligne_witness :
  let self' := snd (get_definitions (U := ascii_unicode) sample_parser
                                    (u "Nom commun")) in
  (pronunciation self', gender self') = ([u "ʃa"], u "masculin")
  /\ sections_id self' = sections_id sample_parser
  /\ _language self' = _language sample_parser
  /\ _query self' = _query sample_parser.
Proof.
  apply (@get_definitions_ligne ascii_unicode sample_parser (u "Nom commun")
           ([0; 5; 0],
            nth 0 (getchildren (anchor "h3" "Nom_commun" "titredef"
                                       "Nom commun")) (Comment [] []))
           [] [0; 5]);
    vm_compute; reflexivity.
Defined.

(** ** Translations: which languages have an entry *)

Lemma sset_keys_in (V : Type) (d : sdict V) (k x : str) (v : V) :
  In x (Dict.keys (sset d k v)) <-> x = k \/ In x (Dict.keys d).
Proof.
  unfold sset; induction d as [|[k' v'] d IH]; simpl; [intuition auto|].
  destruct (str_eqb k' k) eqn:E; simpl.
  - apply str_eqb_eq in E; subst k'; intuition auto.
  - rewrite IH; intuition auto.
Qed.

Lemma translations_loop_keys (lines : list node) :
  forall result name,
    In name (Dict.keys (translations_loop lines result)) <->
    In name (Dict.keys result)
    \/ exists line sp, In line lines /\ find (u "span") line = Some sp
                       /\ text_content sp = name.
Proof.
  induction lines as [|l lines IH]; intros result name; simpl.
  - split; [auto | intros [H|[line [sp [[] _]]]]; exact H].
  - destruct (find (u "span") l) as [sp|] eqn:E; rewrite IH.
    + rewrite sset_keys_in; split.
      * intros [[->|H]|[line [sp' [Hin H]]]]; auto.
        -- right; exists l, sp; auto.
        -- right; exists line, sp'; auto.
      * intros [H|[line [sp' [[<-|Hin] [Hf Ht]]]]]; auto.
        -- rewrite E in Hf; inversion Hf; subst sp'; auto.
        -- right; exists line, sp'; auto.
    + split.
      * intros [H|[line [sp' [Hin H]]]]; auto.
        right; exists line, sp'; auto.
      * intros [H|[line [sp' [[<-|Hin] [Hf Ht]]]]]; auto.
        -- rewrite E in Hf; discriminate.
        -- right; exists line, sp'; auto.
Qed.

(** X13: the result of [get_translations] has an entry for a language name
    exactly when, for some list item of the block that follows the parent of
    the anchor, the first [span] child of the item has that text; a later
    [span] of an item names no language, and an item without [span] adds
    nothing. *)
Theorem get_translations_languages (self : parser) (translation_id : str)
        (anchor : path * node) (found : list (path * node)) (section : path)
        (before next : node) (after lines : list node) :
  query_find (_query self) translation_id = Ok (anchor :: found) ->
  getparent (fst anchor) = Some section ->
  chain_from (_query self) section = before :: next :: after ->
  cssselect (u "li") next = Ok lines ->
  exists result,
    get_translations self translation_id = Ok result
    /\ forall name,
         In name (Dict.keys result) <->
         exists line sp, In line lines /\ find (u "span") line = Some sp
                         /\ text_content sp = name.
Proof.
  intros Hq Hp Hc Hl; eexists; split.
  - unfold get_translations; rewrite Hq; unfold bind at 1; unfold first.
    unfold bind at 1; rewrite Hp, Hc, Hl; reflexivity.
  - intros name; rewrite translations_loop_keys; simpl; tauto.
Qed.

Lemma get_translations_languages_witness :
  exists result,
    get_translations sample_parser (u "#Traductions") = Ok result
    /\ (In (u "Russe") (Dict.keys result) <->
        exists line sp, In line [sample_anglais; sample_russe]
                        /\ find (u "span") line = Some sp
                        /\ text_content sp = u "Russe").
Proof.
  destruct (@get_translations_languages sample_parser (u "#Traductions")
              ([0; 10; 0],
               nth 0 (getchildren (anchor "h4" "Traductions" "" "Traductions"))
                   (Comment [] []))
              [] [0; 10]
              (anchor "h4" "Traductions" "" "Traductions")
              sample_translations (skipn 10 sample_body)
              [sample_anglais; sample_russe])
    as [result [E K]]; try (vm_compute; reflexivity).
  exists result; split; [exact E | apply K].
Defined.

(** ** Missing anchors *)

Section MissingAnchor.
Context {U : Unicode}.

(** X14: when no element of the page has the identifier, [get_definitions]
    and [get_translations] raise [IndexError], and the object is not changed;
    when the parent of the anchor of a translation section is the last of its
    siblings, [get_translations] raises [AttributeError]. *)
Theorem missing_anchor_raises (self : parser) (id : str) :
  (query_find (_query self) (section_slug id) = Ok [] ->
   get_definitions self id = (Raise IndexError, self))
  /\ (query_find (_query self) id = Ok [] ->
      get_translations self id = Raise IndexError)
  /\ (forall anchor found section before,
        query_find (_query self) id = Ok (anchor :: found) ->
        getparent (fst anchor) = Some section ->
        chain_from (_query self) section = [before] ->
        get_translations self id = Raise AttributeError).
Proof.
  split; [|split].
  - intros H; unfold get_definitions; rewrite H; reflexivity.
  - intros H; unfold get_translations; rewrite H; reflexivity.
  - intros anchor found section before Hq Hp Hc.
    unfold get_translations; rewrite Hq; unfold bind, first.
    cbv beta iota; rewrite Hp, Hc; reflexivity.
Qed.

End MissingAnchor.

Lemma missing_anchor_raises_witness :
  get_definitions (U := ascii_unicode) sample_parser (u "Adverbe")
  = (Raise IndexError, sample_parser)
  /\ get_translations sample_parser (u "#Traductions_2") = Raise IndexError
  /\ get_translations (new_parser synonyms_page) (u "#Références")
     = Raise AttributeError.
Proof.
  split; [|split].
  - apply (proj1 (@missing_anchor_raises ascii_unicode sample_parser
                    (u "Adverbe"))).
    vm_compute; reflexivity.
  - apply (proj1 (proj2 (@missing_anchor_raises ascii_unicode sample_parser
                           (u "#Traductions_2")))).
    vm_compute; reflexivity.
  - apply (proj2 (proj2 (@missing_anchor_raises ascii_unicode
                           (new_parser synonyms_page) (u "#Références")))
                 ([0; 8; 0],
                  nth 0 (getchildren (anchor "h3" "Références" ""
                                             "Références")) (Comment [] []))
                 [] [0; 8]
                 (anchor "h3" "Références" "" "Références"));
      vm_compute; reflexivity.
Defined.

(** ** The index of a page without table of contents *)

Section Fallback.
Context {U : Unicode}.

Lemma sset_same_value (V : Type) (d : sdict V) (k : str) (v : V) :
  sget d k = Some v -> sset d k v = d.
Proof. apply (@set_same_value str V str_eqb). Qed.

Lemma sget_sset_two (d : sdict (list str)) (a b : str) :
  sget (sset (sset d a []) b []) a = Some [].
Proof.
  destruct (str_eqb b a) eqn:E.
  - apply str_eqb_eq in E; subst b; apply sget_set_same.
  - apply str_eqb_neq in E; rewrite sget_set_other by exact E.
    apply sget_set_same.
Qed.

Lemma without_summary_index (self : parser) :
  snd (_find_sections_id_without_summary self)
  = with_sections_id self (fallback_index (_query self) (sections_id self)).
Proof.
  unfold _find_sections_id_without_summary, fallback_index.
  destruct self as [root d l p g]; cbn [_query sections_id].
  destruct (query_find root (u "#Étymologie")) as [[|e etym]|e];
    try reflexivity;
    cbn [_query sections_id with_sections_id];
    match goal with
    | |- context [bind ?a ?b] => destruct (bind a b) as [[|c i]|e']
    end; reflexivity.
Qed.

Lemma fallback_index_idempotent (root : node) (d : sdict (list str)) :
  fallback_index root (fallback_index root d) = fallback_index root d.
Proof.
  unfold fallback_index.
  destruct (query_find root (u "#Étymologie")) as [[|e etym]|e];
    try reflexivity;
    match goal with
    | |- context [bind ?a ?b] => destruct (bind a b) as [[|c i]|e']
    end;
    first
      [ reflexivity
      | apply sset_same_value, sget_set_same
      | rewrite (@sset_same_value _ (sset (sset d (u "#Étymologie") []) _ [])
                                  (u "#Étymologie") [])
          by apply sget_sset_two;
        apply sset_same_value, sget_set_same ].
Qed.

Lemma set_language_no_toc (self : parser) (c : char) (rest : str) :
  query_find (_query self) (u ".toc") = Ok [] ->
  snd (set_language self (c :: rest))
  = with_sections_id (with_language self (upper c ++ rest))
      (fallback_index (_query self) (sections_id self)).
Proof.
  intros H; unfold set_language, _find_lang_sections_id.
  change (_query (with_language self (upper c ++ rest))) with (_query self).
  rewrite H.
  pose proof (without_summary_index (with_language self (upper c ++ rest)))
    as W.
  destruct (_find_sections_id_without_summary _) as [r self']; simpl in *.
  exact W.
Qed.

(** X15: on a page without table of contents the index does not depend on
    the language: once the language has been set, setting it again, to any
    value, leaves the index as it is. *)
Theorem no_toc_rescan (self : parser) (c1 c2 : char) (rest1 rest2 : str) :
  query_find (_query self) (u ".toc") = Ok [] ->
  sections_id (snd (set_language (snd (set_language self (c1 :: rest1)))
                                 (c2 :: rest2)))
  = sections_id (snd (set_language self (c1 :: rest1))).
Proof.
  intros H; rewrite (set_language_no_toc self c1 rest1 H).
  rewrite set_language_no_toc by exact H; simpl.
  apply fallback_index_idempotent.
Qed.

End Fallback.

Lemma no_toc_rescan_witness :
  sections_id
    (snd (set_language (U := ascii_unicode)
            (snd (set_language (U := ascii_unicode)
                    (new_parser fallback_page) (u "français")))
            (u "anglais")))
  = sections_id (snd (set_language (U := ascii_unicode)
                        (new_parser fallback_page) (u "français")))
  /\ set_language (U := ascii_unicode) (new_parser fallback_page)
                  (u "français")
     = (Ok tt,
        {| _query := fallback_page;
           sections_id := [(u "#Étymologie", []); (u "#Nom_commun", [])];
           _language := u "Français";
           pronunciation := [];
           gender := [] |}).
Proof.
  split; [|vm_compute; reflexivity].
  apply (@no_toc_rescan ascii_unicode (new_parser fallback_page)
                        102%N 97%N (u "rançais") (u "nglais")).
  vm_compute; reflexivity.
Defined.

(** ** The index built from the table of contents *)

Section TocIndex.
Context {U : Unicode}.

Lemma toc_loop_no_star (items : list node) :
  forall sid,
    (forall k, In k (Dict.keys sid) -> contains (u "*") k = false) ->
    forall k, In k (Dict.keys (snd (toc_loop items sid))) ->
              contains (u "*") k = false.
Proof.
  induction items as [|section items IH]; intros sid H; simpl; [exact H|].
  destruct (link_target section) as [section_id|e]; [|exact H].
  destruct (contains (u "*") section_id) eqn:E; [apply IH, H|].
  assert (S : forall v k, In k (Dict.keys (sset sid section_id v)) ->
                          contains (u "*") k = false).
  { intros v k Hk; apply sset_keys_in in Hk.
    destruct Hk as [->|Hk]; [exact E | apply H, Hk]. }
  destruct (find (u "ul") section) as [ul|]; [|apply IH, S].
  destruct (subsection_targets (getchildren ul)); [apply IH, S | exact H].
Qed.

(** X16: when the page has a table of contents and the scan returns an
    index, that index is the one stored in the object and none of its keys
    contains the wildcard [*]. *)
Theorem toc_index_no_wildcard (self : parser) (t : path * node)
        (toc : list (path * node)) (d : sdict (list str)) :
  query_find (_query self) (u ".toc") = Ok (t :: toc) ->
  fst (_find_lang_sections_id self) = Ok (Some d) ->
  sections_id (snd (_find_lang_sections_id self)) = d
  /\ forall k, In k (Dict.keys d) -> contains (u "*") k = false.
Proof.
  intros Ht; unfold _find_lang_sections_id; rewrite Ht.
  destruct (query_find (_query self) (u "a")) as [links|e]; [|discriminate].
  destruct (List.find _ links) as [lang|]; [|discriminate].
  destruct (chain_from (_query self) (fst lang)) as [|x [|next chain]];
    try discriminate.
  pose proof (toc_loop_no_star (getchildren next) [] (fun k (H : In k []) =>
                match H with end)) as N.
  destruct (toc_loop (getchildren next) []) as [[[]|e] sid]; simpl in *;
    [|discriminate].
  intros E; inversion E; subst d; split; [reflexivity | exact N].
Qed.

End TocIndex.

Lemma toc_index_no_wildcard_witness :
  sections_id (snd (_find_lang_sections_id sample_parser))
  = sections_id sample_parser
  /\ forall k, In k (Dict.keys (sections_id sample_parser)) ->
               contains (u "*") k = false.
Proof.
  apply (@toc_index_no_wildcard sample_parser ([0; 0], sample_toc) []);
    vm_compute; reflexivity.
Defined.

(** ** The constructor and the language code *)

Section Constructor.
Context {U : Unicode}.

(** X17: with a language code the constructor ignores its [language]
    argument: an unknown code raises the [KeyError] of [get_language_name]
    before the page is looked at, a known one builds the object of the name
    it stands for; the empty code counts as no code. *)
Theorem init_lang_code (languages_json : sdict str) (html : node)
        (c : char) (code language : str) :
  (~ In (c :: code) (Dict.keys languages_json) ->
   init languages_json html (Some (c :: code)) language
   = Raise (KeyError (u "Language code unknown : " ++ c :: code)))
  /\ (forall name,
        sget languages_json (c :: code) = Some name ->
        init languages_json html (Some (c :: code)) language
        = init languages_json html None name)
  /\ init languages_json html (Some []) language
     = init languages_json html None language.
Proof.
  unfold init, get_language_name; split; [|split; [|reflexivity]].
  - intros H; apply (@get_absent _ _ str_eqb str_eqb_eq) in H.
    unfold sget; rewrite H; reflexivity.
  - intros name H; rewrite H; reflexivity.
Qed.

End Constructor.

Lemma init_lang_code_witness :
  init (U := ascii_unicode) sample_languages sample_page (Some (u "xx"))
       (u "Français")
  = Raise (KeyError (u "Language code unknown : xx"))
  /\ init (U := ascii_unicode) sample_languages sample_page (Some (u "en"))
          (u "Français")
     = init (U := ascii_unicode) sample_languages sample_page None
            (u "Anglais").
Proof.
  split.
  - apply (proj1 (@init_lang_code ascii_unicode sample_languages sample_page
                    120%N (u "x") (u "Français"))).
    vm_compute; intuition discriminate.
  - apply (proj1 (proj2 (@init_lang_code ascii_unicode sample_languages
                           sample_page 101%N (u "n") (u "Français")))).
    reflexivity.
Defined.

(** ** Categories without a subsection *)

Section NoMatch.
Context {U : Unicode} {Q : PyQuery}.

Lemma matched_none (regex : re) (root : node)
      (items : list (str * list str)) :
  (forall key values v, In (key, values) items -> In v values ->
                        fullmatch regex v = false) ->
  matched regex root items = [].
Proof.
  induction items as [|[key values] items IH]; intros H; [reflexivity|].
  unfold matched; simpl.
  rewrite (@filter_none _ (fullmatch regex) values)
    by (intros v Hv; apply (H key values); [left; reflexivity | exact Hv]).
  apply IH; intros k vs v Hin; apply (H k vs v); right; exact Hin.
Qed.

(** X18: when the section lookups succeed and no subsection of the index
    matches the category, [get_related_words] returns the empty mapping and
    [insert_related_words] then returns the record it was given. *)
Theorem get_related_words_no_match (self : parser) (related_word : str)
        (regex : re) (parts_of_speech : vdict) :
  related_regex (replace_char 32%N (u "_") related_word) = Ok regex ->
  (forall key, In key (Dict.keys (sections_id self)) ->
               exists found, query_find (_query self) key = Ok found) ->
  (forall key values v, In (key, values) (sections_id self) ->
                        In v values -> fullmatch regex v = false) ->
  get_related_words self related_word = Ok []
  /\ bind (get_related_words self related_word)
          (insert_related_words parts_of_speech related_word)
     = Ok parts_of_speech.
Proof.
  intros Hr Hq Hm.
  assert (E : get_related_words self related_word = Ok []).
  { unfold get_related_words, _related_words_ids; rewrite Hr; simpl bind.
    rewrite (ids_loop_fold _ _ _ Hq), (matched_none _ _ _ Hm).
    reflexivity. }
  split; [exact E | rewrite E; reflexivity].
Qed.

End NoMatch.

Lemma get_related_words_no_match_witness :
  get_related_words (U := ascii_unicode) (Q := plain_text) sample_parser
                    (u "Antonymes") = Ok []
  /\ bind (get_related_words (U := ascii_unicode) (Q := plain_text)
                             sample_parser (u "Antonymes"))
          (insert_related_words [(KStr (u "Nom commun"), VDict [])]
                                (u "Antonymes"))
     = Ok [(KStr (u "Nom commun"), VDict [])].
Proof.
  refine (@get_related_words_no_match ascii_unicode plain_text sample_parser
            (u "Antonymes") _ [(KStr (u "Nom commun"), VDict [])]
            eq_refl _ _).
  - intros key H; vm_compute in H.
    destruct H as [<-|[<-|[<-|[]]]]; eexists; vm_compute; reflexivity.
  - intros key values v H; vm_compute in H.
    destruct H as [H|[H|[H|[]]]]; inversion H; subst; intros Hv;
      vm_compute in Hv; repeat destruct Hv as [<-|Hv]; try contradiction;
      vm_compute; reflexivity.
Defined.

(** ** Examples *)

Section Examples.
Context {U : Unicode}.

Lemma examples_loop_closed (chain : list node) :
  forall count examples,
    (forall j, In (KInt j) (Dict.keys examples) -> j < count) ->
    examples_loop chain count examples
    = examples ++ flat_map example_at (enumerate_from count chain).
Proof.
  induction chain as [|line chain IH]; intros count examples Hk; simpl;
    [rewrite app_nil_r; reflexivity|].
  unfold example_at at 1; simpl fst; simpl snd.
  destruct (strip (first_line (text_content line))) as [|c s].
  - rewrite IH; [reflexivity | intros j Hj; apply Hk in Hj; lia].
  - assert (F : ~ In (KInt count) (Dict.keys examples))
      by (intros H; apply Hk in H; lia).
    rewrite (@vset_fresh examples (KInt count) _ F), IH.
    + rewrite <- app_assoc; simpl.
      destruct (truthy (get_translation line)); reflexivity.
    + intros j; unfold Dict.keys; rewrite map_app, in_app_iff; simpl.
      intros [H|[H|[]]]; [apply Hk in H; lia | inversion H; lia].
Qed.

(** X19: the examples of a definition item are read from the first [li] of
    its first [ul] and the siblings after it; each is stored under its
    position in that chain, and a line whose first line of text is blank is
    left out while its position stays unused.  An item without [ul] has no
    examples. *)
Theorem get_examples_numbering (definition_bloc : node) :
  get_examples definition_bloc
  = match find (u "ul") definition_bloc with
    | Some ul =>
      flat_map example_at
               (enumerate_from 0 (chain_at_tag (u "li") (getchildren ul)))
    | None => []
    end.
Proof.
  unfold get_examples; destruct (find (u "ul") definition_bloc);
    [|reflexivity].
  rewrite examples_loop_closed; [reflexivity | intros j []].
Qed.

End Examples.

(** ** Translations belong to the French sections *)

Section TranslationsOnlyFrench.
Context {U : Unicode} {Q : PyQuery}.

Lemma vset_in (d : vdict) (k k' : key) (v v' : value) :
  In (k', v') (vset d k v) -> (k' = k /\ v' = v) \/ In (k', v') d.
Proof.
  unfold vset; induction d as [|[k0 v0] d IH]; simpl.
  - intros [H|[]]; inversion H; auto.
  - destruct (key_eqb k0 k) eqn:E; simpl.
    + apply key_eqb_eq in E; subst k0.
      intros [H|H]; [inversion H; auto | auto].
    + intros [H|H]; [auto | apply IH in H; tauto].
Qed.

Lemma vget_in (d : vdict) (k : key) (v : value) :
  vget d k = Some v -> In (k, v) d.
Proof.
  unfold vget; induction d as [|[k0 v0] d IH]; simpl; [discriminate|].
  destruct (key_eqb k0 k) eqn:E.
  - apply key_eqb_eq in E; subst k0; intros H; inversion H; auto.
  - auto.
Qed.

Lemma vset_keys_in (d : vdict) (k x : key) (v : value) :
  In x (Dict.keys (vset d k v)) -> x = k \/ In x (Dict.keys d).
Proof.
  destruct (vset_keys_cases d k v) as [[_ E]|[_ E]]; rewrite E; [auto|].
  rewrite in_app_iff; simpl; intuition auto.
Qed.

Lemma int_keys_clean (d : vdict) (s : str) : int_keys d -> vget d (KStr s) = None.
Proof.
  intros H; apply (@get_absent key value key_eqb key_eqb_eq).
  intros Hin; destruct (H _ Hin) as [i Hi]; discriminate.
Qed.

Lemma int_keys_set (d : vdict) (i : nat) (v : value) :
  int_keys d -> int_keys (vset d (KInt i) v).
Proof.
  intros H k Hk; apply vset_keys_in in Hk.
  destruct Hk as [->|Hk]; [exists i; reflexivity | apply H, Hk].
Qed.

Lemma definitions_loop_int_keys (blocs : list node) :
  forall i d, int_keys d -> int_keys (definitions_loop i blocs d).
Proof.
  induction blocs as [|b blocs IH]; intros i d H; simpl; [exact H|].
  apply IH, int_keys_set, H.
Qed.

Lemma extract_related_loop_int_keys (chain : list node) :
  forall count related result,
    int_keys related ->
    extract_related_loop chain count related = Ok result -> int_keys result.
Proof.
  induction chain as [|n chain IH]; intros count related result H; simpl.
  - intros E; inversion E; subst; exact H.
  - destruct (is_heading n); [intros E; inversion E; subst; exact H|].
    destruct (is_comment n); simpl bind; [apply IH, H|].
    destruct (related_entry n) as [entry|e]; simpl bind; [|discriminate].
    apply IH, int_keys_set, H.
Qed.

Lemma int_keys_nil : int_keys [].
Proof. intros k []. Qed.

(** [get_definitions] touches only the pronunciation and the gender. *)
Lemma get_definitions_frame (self : parser) (part_of_speech : str) :
  _language (snd (get_definitions self part_of_speech)) = _language self
  /\ sections_id (snd (get_definitions self part_of_speech))
     = sections_id self
  /\ _query (snd (get_definitions self part_of_speech)) = _query self.
Proof.
  unfold get_definitions.
  destruct (bind _ _) as [text|e]; [|repeat split].
  destruct (getparent (fst text)); [|repeat split].
  destruct (walk_to_ol _ _); repeat split.
Qed.

Lemma get_definitions_int_keys (self : parser) (part_of_speech : str)
      (d : vdict) :
  fst (get_definitions self part_of_speech) = Ok d -> int_keys d.
Proof.
  unfold get_definitions.
  destruct (bind _ _) as [text|e]; [|discriminate].
  destruct (getparent (fst text));
    [|intros E; inversion E; apply int_keys_nil].
  destruct (walk_to_ol _ _) as [[|ol stop] pg]; simpl;
    intros E; inversion E;
    [apply int_keys_nil | apply definitions_loop_int_keys, int_keys_nil].
Qed.

Lemma no_translations_set (pos : vdict) (k : key) (v : value) :
  no_translations pos -> no_translations_in v ->
  no_translations (vset pos k v).
Proof.
  intros H Hv k' v' Hin; apply vset_in in Hin.
  destruct Hin as [[_ ->]|Hin]; [exact Hv | exact (H _ _ Hin)].
Qed.

Lemma entry_clean (d : vdict) (k : str) (v : value) :
  k <> u "translations" ->
  vget d (KStr (u "translations")) = None ->
  vget (vset d (KStr k) v) (KStr (u "translations")) = None.
Proof.
  intros N H; rewrite vget_set_other; [exact H | congruence].
Qed.

Lemma sections_loop_no_translations (sections : list str) :
  forall self pos result self',
    _language self <> u "Français" ->
    no_translations pos ->
    sections_loop self sections pos = (Ok result, self') ->
    no_translations result /\ _language self' = _language self
    /\ sections_id self' = sections_id self /\ _query self' = _query self.
Proof.
  induction sections as [|name sections IH]; intros self pos result self' L H;
    simpl.
  - intros E; inversion E; subst.
    split; [exact H | split; [reflexivity | split; reflexivity]].
  - destruct (_real_section_name self name) as [nice|e]; [|discriminate].
    pose proof (get_definitions_frame self name) as [FL [FS FQ]].
    pose proof (get_definitions_int_keys self name) as K.
    destruct (get_definitions self name) as [[definitions|e] self1];
      [|discriminate].
    simpl in FL, FS, FQ, K; specialize (K definitions eq_refl).
    assert (N : str_eqb (_language self1) (u "Français") = false)
      by (apply str_eqb_neq; congruence).
    rewrite N; simpl negb; cbv iota.
    intros E; apply IH in E; [|rewrite FL; exact L|].
    + destruct E as [R [EL [ES EQ]]].
      split; [exact R | split; [congruence | split; congruence]].
    + apply no_translations_set; [exact H|].
      intros d E'; inversion E'; subst d.
      assert (C : vget definitions (KStr (u "translations")) = None)
        by (apply int_keys_clean, K).
      destruct (pronunciation self1), (gender self1);
        repeat (apply entry_clean; [vm_compute; discriminate|]); exact C.
Qed.

Lemma related_loop_clean (root : node) (ids : list (str * str)) :
  forall related_words result,
    (forall k v, In (k, v) related_words -> no_translations_in v) ->
    related_loop root ids related_words = Ok result ->
    forall k v, In (k, v) result -> no_translations_in v.
Proof.
  induction ids as [|[key value] ids IH]; intros related result H; simpl.
  - intros E; inversion E; subst; exact H.
  - destruct (query_find root value) as [found|e]; simpl bind;
      [|discriminate].
    destruct (first found) as [anchor|e]; simpl bind; [|discriminate].
    destruct (getparent (fst anchor)) as [parent|]; simpl bind;
      [|discriminate].
    destruct (contains (u "Notes") value).
    + destruct (get_notes _) as [notes|e]; simpl bind; [|discriminate].
      apply IH; intros k v Hin; apply vset_in in Hin.
      destruct Hin as [[_ ->]|Hin]; [discriminate | exact (H _ _ Hin)].
    + destruct (extract_related_words _) as [words|e] eqn:W; simpl bind;
        [|discriminate].
      apply IH; intros k v Hin; apply vset_in in Hin.
      destruct Hin as [[_ ->]|Hin]; [|exact (H _ _ Hin)].
      intros d E; inversion E; subst d; apply int_keys_clean.
      exact (@extract_related_loop_int_keys _ 0 [] words int_keys_nil W).
Qed.

Lemma insert_groups_no_translations (part : str) (related : vdict) :
  part <> u "translations" ->
  forall pos result,
    no_translations pos ->
    (forall k v, In (k, v) related -> no_translations_in v) ->
    insert_groups part pos related = Ok result ->
    no_translations result.
Proof.
  intros N; induction related as [|[k v] related IH]; intros pos result H R;
    simpl.
  - intros E; inversion E; subst; exact H.
  - unfold insert_group at 1; simpl fst; simpl snd.
    assert (Rv : no_translations_in v) by (apply (R k); left; reflexivity).
    assert (R' : forall k' v', In (k', v') related -> no_translations_in v')
      by (intros k' v' Hin; apply (R k'); right; exact Hin).
    destruct (vget pos k) as [[| |d|]|] eqn:G; simpl bind; try discriminate.
    + apply IH; [|exact R'].
      apply no_translations_set; [exact H|].
      intros d' E; inversion E; subst d'.
      apply entry_clean; [exact N|].
      exact (H _ _ (vget_in _ _ G) d eq_refl).
    + apply IH; [|exact R'].
      apply no_translations_set; assumption.
Qed.

Lemma parts_loop_no_translations (l : list str) :
  (forall part, In part l -> part <> u "translations") ->
  forall self pos result,
    no_translations pos ->
    parts_loop self l pos = Ok result -> no_translations result.
Proof.
  induction l as [|part l IH]; intros N self pos result H; simpl.
  - intros E; inversion E; subst; exact H.
  - destruct (get_related_words self part) as [related|e] eqn:G; simpl bind;
      [|discriminate].
    destruct (insert_related_words pos part related) as [pos'|e] eqn:I;
      simpl bind; [|discriminate].
    intros E.
    apply (IH (fun p Hp => N p (or_intror Hp)) self pos' result); [|exact E].
    unfold insert_related_words in I; destruct related as [|g related];
      [inversion I; subst; exact H|].
    refine (@insert_groups_no_translations part (g :: related)
              (N part (or_introl eq_refl)) pos pos' H _ I).
    unfold get_related_words in G.
    destruct (_related_words_ids self part) as [ids|e]; simpl in G;
      [|discriminate].
    exact (@related_loop_clean (_query self) ids [] (g :: related)
             (fun k v (F : In (k, v) []) => match F with end) G).
Qed.

Lemma parts_not_translations :
  forall part, In part parts -> part <> u "translations".
Proof.
  assert (E : forallb (fun p => negb (str_eqb p (u "translations"))) parts
              = true) by (vm_compute; reflexivity).
  intros part Hin; rewrite forallb_forall in E; specialize (E part Hin).
  apply negb_true_iff, str_eqb_neq in E; exact E.
Qed.

(** X20: for an object whose language is not ['Français'], no entry of the
    record returned by [get_parts_of_speech] has a ['translations'] entry. *)
Theorem translations_only_for_french (self : parser) (result : vdict) :
  _language self <> u "Français" ->
  fst (get_parts_of_speech self) = Ok result ->
  no_translations result.
Proof.
  intros L; unfold get_parts_of_speech.
  destruct (sections_loop self _ []) as [[pos|e] self'] eqn:S; simpl;
    [|discriminate].
  apply sections_loop_no_translations in S; [|exact L|intros k v []].
  destruct S as [S _]; intros E.
  exact (@parts_loop_no_translations parts parts_not_translations
           self' pos result S E).
Qed.

End TranslationsOnlyFrench.

Lemma translations_only_for_french_witness :
  exists result,
    fst (get_parts_of_speech (U := ascii_unicode) (Q := plain_text)
           (with_language sample_parser (u "Anglais"))) = Ok result
    /\ no_translations result.
Proof.
  eexists; split; [vm_compute; reflexivity|].
  apply (@translations_only_for_french ascii_unicode plain_text
           (with_language sample_parser (u "Anglais")));
    [vm_compute; discriminate | vm_compute; reflexivity].
Defined.

(** ** The table of contents: replacement and partial indexes *)

Section TocScan.
Context {U : Unicode}.

(** X21: when the language has a link in a page with a table of contents and
    a node follows that link, the index left by the setter is the one built
    from the children of that node, starting from the empty index: what the
    index held before plays no part. *)
Theorem found_language_replaces_index (self : parser) (c : char) (rest : str)
        (t lang : path * node) (toc links : list (path * node))
        (x next : node) (chain : list node) (d : sdict (list str)) :
  query_find (_query self) (u ".toc") = Ok (t :: toc) ->
  query_find (_query self) (u "a") = Ok links ->
  List.find
    (is_lang_link (u "#" ++ replace_char 32%N (u "_") (upper c ++ rest)))
    links = Some lang ->
  chain_from (_query self) (fst lang) = x :: next :: chain ->
  sections_id (snd (set_language (with_sections_id self d) (c :: rest)))
  = snd (toc_loop (getchildren next) []).
Proof.
  intros Ht Hl Hf Hc; unfold set_language.
  pose proof (@find_lang_found
                (with_language (with_sections_id self d) (upper c ++ rest))
                t lang toc links x next chain Ht Hl Hf Hc) as F.
  destruct (_find_lang_sections_id _) as [r self']; exact F.
Qed.

Lemma toc_loop_app (pre post : list node) :
  forall sid,
    toc_loop (pre ++ post) sid
    = match toc_loop pre sid with
      | (Ok _, sid') => toc_loop post sid'
      | (Raise e, sid') => (Raise e, sid')
      end.
Proof.
  induction pre as [|section pre IH]; intros sid; simpl; [reflexivity|].
  destruct (link_target section) as [section_id|e]; [|reflexivity].
  destruct (contains (u "*") section_id); [apply IH|].
  destruct (find (u "ul") section) as [ul|]; [|apply IH].
  destruct (subsection_targets (getchildren ul)); [apply IH | reflexivity].
Qed.

(** X22: an item of the table of contents that has no direct link stops the
    scan with [AttributeError]; the index then holds the items in front of
    it, and the items behind it are not read. *)
Theorem toc_loop_stops_at_bad_item (pre post : list node) (bad : node)
        (sid : sdict (list str)) :
  find (u "a") bad = None ->
  toc_loop pre [] = (Ok tt, sid) ->
  toc_loop (pre ++ bad :: post) [] = (Raise AttributeError, sid).
Proof.
  intros Hb Hpre; rewrite toc_loop_app, Hpre; simpl.
  unfold link_target; rewrite Hb; reflexivity.
Qed.

End TocScan.

Lemma found_language_replaces_index_witness :
  sections_id
    (snd (set_language (U := ascii_unicode)
            (with_sections_id sample_parser [(u "#Ancien", [])])
            (u "anglais")))
  = [(u "#Nom_commun_2", [])].
Proof.
  pose (li := nth 1 (getchildren (nth 0 (getchildren sample_toc)
                                      (Comment [] []))) (Comment [] [])).
  refine (eq_trans
            (@found_language_replaces_index ascii_unicode sample_parser
               97%N (u "nglais") ([0; 0], sample_toc)
               ([0; 0; 0; 1; 0], nth 0 (getchildren li) (Comment [] []))
               [] _ (nth 0 (getchildren li) (Comment [] []))
               (nth 1 (getchildren li) (Comment [] [])) []
               [(u "#Ancien", [])] _ _ _ _) _);
    vm_compute; reflexivity.
Defined.

Lemma toc_loop_stops_at_bad_item_witness :
  toc_loop ([toc_item "#Nom_commun" []; toc_item "#Verbe" []]
            ++ elt "li" [] "sans lien" [] :: [toc_item "#Adverbe" []]) []
  = (Raise AttributeError, [(u "#Nom_commun", []); (u "#Verbe", [])]).
Proof.
  apply (@toc_loop_stops_at_bad_item
           [toc_item "#Nom_commun" []; toc_item "#Verbe" []]
           [toc_item "#Adverbe" []] (elt "li" [] "sans lien" []));
    vm_compute; reflexivity.
Defined.
